(** * The database-backed scheduler strategy

    A shallow embedding of [DefaultSchedulerStrategy]
    (packages/core/src/plugin/default-scheduler-plugin/default-scheduler-strategy.ts)
    and of the SQL statements it issues against the [ScheduledTaskRecord]
    table, followed by the properties of the lease protocol built on them. *)

From stdpp Require Import base option list strings gmap pretty functions relations.
From Stdlib Require Import ZArith Lia.

Open Scope Z_scope.
Open Scope string_scope.
Open Scope list_scope.

(** ** Values *)

(** Wall-clock instants ([Date] values), as milliseconds since the epoch. *)
Definition Time := Z.

(** The JavaScript values that travel through [lastResult] and through
    [throw]. *)
#[warnings="-register-all"]
Inductive JsValue :=
| JUndefined
| JNull
| JBool (b : bool)
| JNumber (n : Z)
| JString (s : string)
| JObject (fields : list (string * JsValue)).

(** What a [catch] clause can receive: an [Error] instance, of which only
    [message] is read, or any other value. *)
Inductive Thrown :=
| ErrorInstance (message : string)
| NonError (v : JsValue).

(** [a ?? b] *)
Definition nullish (a b : JsValue) : JsValue :=
  match a with
  | JUndefined | JNull => b
  | _ => a
  end.

(** ** The [ScheduledTaskRecord] table *)

Record ScheduledTaskRecord := {
  taskId : string;
  enabled : bool;
  lockedAt : option Time;
  lastExecutedAt : option Time;
  lastResult : JsValue;
}.

(** The table is the list of its rows, in storage order. *)
Definition Store := list ScheduledTaskRecord.

Definition hasTaskId (id : string) (r : ScheduledTaskRecord) : bool :=
  bool_decide (taskId r = id).

Definition rowsFor (id : string) (s : Store) : list ScheduledTaskRecord :=
  List.filter (hasTaskId id) s.

(** The column assignments of an UPDATE: [None] leaves a column as it is. *)
Record Patch := {
  set_lockedAt : option (option Time);
  set_lastExecutedAt : option (option Time);
  set_lastResult : option JsValue;
}.

Definition applyPatch (p : Patch) (r : ScheduledTaskRecord) : ScheduledTaskRecord :=
  {| taskId := taskId r;
     enabled := enabled r;
     lockedAt := default (lockedAt r) (set_lockedAt p);
     lastExecutedAt := default (lastExecutedAt r) (set_lastExecutedAt p);
     lastResult := default (lastResult r) (set_lastResult p) |}.

(** [UPDATE ... SET p WHERE cond]: the new table and the number of rows
    affected. *)
Fixpoint sqlUpdate (cond : ScheduledTaskRecord -> bool) (p : Patch) (s : Store)
  : Store * nat :=
  match s with
  | [] => ([], 0%nat)
  | r :: rest =>
      let '(rest', n) := sqlUpdate cond p rest in
      if cond r then (applyPatch p r :: rest', S n) else (r :: rest', n)
  end.

(** [.update().set({ lockedAt: new Date() }).where('taskId = :taskId')
     .andWhere('lockedAt IS NULL')] *)
Definition claimable (id : string) (r : ScheduledTaskRecord) : bool :=
  hasTaskId id r && bool_decide (lockedAt r = None).

Definition claimPatch (now : Time) : Patch :=
  {| set_lockedAt := Some (Some now);
     set_lastExecutedAt := None;
     set_lastResult := None |}.

Definition tryClaim (id : string) (now : Time) (s : Store) : Store * nat :=
  sqlUpdate (claimable id) (claimPatch now) s.

(** [getRepository(ScheduledTaskRecord).update({ taskId }, p)] *)
Definition repoUpdate (id : string) (p : Patch) (s : Store) : Store * nat :=
  sqlUpdate (hasTaskId id) p s.

(** The two partial entities handed to [update] when an attempt ends. *)
Definition successPatch (now : Time) (result : JsValue) : Patch :=
  {| set_lockedAt := Some None;
     set_lastExecutedAt := Some (Some now);
     set_lastResult := Some (nullish result (JString EmptyString)) |}.

Definition errorRecord (errorMessage : string) : JsValue :=
  JObject [("error", JString errorMessage)].

Definition failurePatch (errorMessage : string) : Patch :=
  {| set_lockedAt := Some None;
     set_lastExecutedAt := None;
     set_lastResult := Some (errorRecord errorMessage) |}.

(** ** Reports *)

Module TaskReport.
Record t := {
  id : string;
  lastExecutedAt : option Time;
  isRunning : bool;
  lastResult : JsValue;
  enabled : bool;
}.
End TaskReport.

Definition entityToReport (task : ScheduledTaskRecord) : TaskReport.t :=
  {| TaskReport.id := taskId task;
     TaskReport.lastExecutedAt := lastExecutedAt task;
     TaskReport.isRunning := negb (bool_decide (lockedAt task = None));
     TaskReport.lastResult := lastResult task;
     TaskReport.enabled := enabled task |}.

(** [createQueryBuilder('task').getMany()] then [map] *)
Definition getTasks (s : Store) : list TaskReport.t :=
  List.map entityToReport s.

(** [where('task.taskId = :id').getOne()]: the first matching row, if any. *)
Definition getOne (id : string) (s : Store) : option ScheduledTaskRecord :=
  List.find (hasTaskId id) s.

Definition getTask (id : string) (s : Store) : option TaskReport.t :=
  match getOne id s with
  | Some task => Some (entityToReport task)
  | None => None
  end.

(** ** The process-local side of the strategy *)

(** A [timeout] option: milliseconds, or a duration string for [ms]. *)
Inductive Duration :=
| DNumber (n : Z)
| DString (s : string).

Module ScheduledTask.
Record t := {
  id : string;
  timeout : option Duration;   (* task.options.timeout *)
}.
End ScheduledTask.

Record DefaultSchedulerPluginOptions := {
  defaultTimeout : option Duration;
}.

(** An entry of the [tasks] map of the strategy. *)
Record TaskEntry := {
  task : ScheduledTask.t;
  isRegistered : bool;
}.

(** How a promise ends. *)
Inductive Settlement :=
| Resolved (v : JsValue)
| Rejected (e : Thrown).

(** What [task.execute(injector)] does in one attempt, seen from
    [Promise.race]: it throws before returning anything, it settles before
    the timer fires, or the timer fires first and the body settles later or
    never. *)
Inductive BodyRun :=
| ThrowsSync (e : Thrown)
| SettlesFirst (s : Settlement)
| TimerFirst (later : option Settlement).

(** The statements the strategy sends to the store, by the place in
    [executeTask] that sends them. *)
Inductive StoreOp :=
| OpInsert
| OpClaim
| OpReleaseSuccess
| OpReleaseFailure.

(** What the collaborators do during one firing. *)
Record Env := {
  isServer : bool;                        (* processContext.isServer *)
  storeFault : StoreOp -> option string;  (* a failing statement, with the driver's message *)
  claimTime : Time;                       (* [new Date()] of the claim *)
  finishTime : Time;                      (* [new Date()] of the success update *)
  bodyRun : BodyRun;
}.

Inductive LogLevel := Verbose | Warn | Error.

Inductive Event :=
| Log (level : LogLevel) (message : string)
| Statement (op : StoreOp)
| SetTimeout (delay : option Z)
| ClearTimeout
| Execute.

(** The shared table, the strategy's own [tasks] map, and what one process
    has done so far. *)
Record World := {
  store : Store;
  tasks : gmap string TaskEntry;
  trace : list Event;
}.

(** An [async] function body: it runs on the world and either completes or
    throws; the returned promise is fulfilled or rejected accordingly. *)
Inductive Completion (A : Type) :=
| Normal (a : A)
| Throw (e : Thrown).
Arguments Normal {A} a.
Arguments Throw {A} e.

Definition M (A : Type) : Type := World -> Completion A * World.

Definition ret {A} (a : A) : M A := fun w => (Normal a, w).

Definition bind {A B} (m : M A) (k : A -> M B) : M B :=
  fun w =>
    match m w with
    | (Normal a, w') => k a w'
    | (Throw e, w') => (Throw e, w')
    end.

Definition throw {A} (e : Thrown) : M A := fun w => (Throw e, w).

(** [try { m } catch (error) { h error }] *)
Definition tryCatch {A} (m : M A) (h : Thrown -> M A) : M A :=
  fun w =>
    match m w with
    | (Normal a, w') => (Normal a, w')
    | (Throw e, w') => h e w'
    end.

#[global] Instance M_ret : MRet M := @ret.
#[global] Instance M_bind : MBind M := fun A B k m => bind m k.

Definition emit (ev : Event) : M unit :=
  fun w => (Normal tt, {| store := store w; tasks := tasks w; trace := trace w ++ [ev] |}).

Definition dquote : string := String (Ascii.ascii_of_nat 34) EmptyString.

Definition log (level : LogLevel) (message : string) : M unit :=
  emit (Log level message).

(** [this.tasks.get(id)?.isRegistered] *)
Definition registeredIn (id : string) (m : gmap string TaskEntry) : bool :=
  match m !! id with
  | Some entry => isRegistered entry
  | None => false
  end.

(** [this.tasks.set(task.id, { task, isRegistered: true })] *)
Definition markRegistered (t : ScheduledTask.t) : M unit :=
  fun w =>
    (Normal tt,
     {| store := store w;
        tasks := <[ScheduledTask.id t := {| task := t; isRegistered := true |}]> (tasks w);
        trace := trace w |}).

(** [`${timeoutMs}`], for a delay that is an integer below 10^21, which
    JavaScript prints in decimal; other numbers are printed in other ways,
    so no property below depends on the digits. *)
Definition showDelay (timeoutMs : option Z) : string :=
  match timeoutMs with
  | Some n => pretty n
  | None => "undefined"
  end.

Section Strategy.

(** The column defaults of the entity, which the insert relies on for
    every column but [taskId]. *)
Variable defaultEnabled : bool.
Variable defaultLastResult : JsValue.

(** The [ms] package: a number of milliseconds, [undefined], or an
    exception. The argument [None] is [undefined]. *)
Inductive MsResult :=
| MsValue (n : option Z)
| MsThrows (message : string).
Variable ms : option string -> MsResult.

Variable pluginOptions : DefaultSchedulerPluginOptions.

(** Modelled from the spec: the [ScheduledTaskRecord] entity
    (scheduled-task-record.entity.ts), which fixes the columns of a row
    inserted with [taskId] alone. A new row has null [lockedAt] and
    [lastExecutedAt]; the two other defaults are the parameters above. *)
Definition freshRow (id : string) : ScheduledTaskRecord :=
  {| taskId := id;
     enabled := defaultEnabled;
     lockedAt := None;
     lastExecutedAt := None;
     lastResult := defaultLastResult |}.

(** [.insert().into(ScheduledTaskRecord).values({ taskId }).orIgnore()].
    Modelled from the spec: the key of the entity, on which the insert
    conflicts, is [taskId]; a conflicting insert is ignored. *)
Definition insertOrIgnore (id : string) (s : Store) : Store * nat :=
  if List.existsb (hasTaskId id) s then (s, 0%nat) else (s ++ [freshRow id], 1%nat).

Definition ensureRow (id : string) (s : Store) : Store := (insertOrIgnore id s).1.

Section Firing.

Variable env : Env.

(** A statement either fails as a whole, leaving the table as it was,
    or runs atomically. *)
Definition statement (op : StoreOp) (f : Store -> Store * nat) : M nat :=
  fun w =>
    let tr := trace w ++ [Statement op] in
    match storeFault env op with
    | Some message =>
        (Throw (ErrorInstance message),
         {| store := store w; tasks := tasks w; trace := tr |})
    | None =>
        (Normal (f (store w)).2,
         {| store := (f (store w)).1; tasks := tasks w; trace := tr |})
    end.

Definition ensureTaskIsRegistered (t : ScheduledTask.t) : M unit :=
  fun w =>
    if registeredIn (ScheduledTask.id t) (tasks w) then ret tt w
    else (_ ← statement OpInsert (insertOrIgnore (ScheduledTask.id t));
          markRegistered t) w.

(** [task.options.timeout ?? pluginOptions.defaultTimeout], then
    [typeof timeout === 'number' ? timeout : ms(timeout)] *)
Definition resolveTimeout (t : ScheduledTask.t) : MsResult :=
  let timeout :=
    match ScheduledTask.timeout t with
    | Some d => Some d
    | None => defaultTimeout pluginOptions
    end in
  match timeout with
  | Some (DNumber n) => MsValue (Some n)
  | Some (DString s) => ms (Some s)
  | None => ms None
  end.

Definition evalMs (r : MsResult) : M (option Z) :=
  match r with
  | MsValue n => ret n
  | MsThrows message => throw (ErrorInstance message)
  end.

(** [await Promise.race([task.execute(this.injector), timeoutPromise])].
    The timer callback logs the warning and rejects [timeoutPromise]; the
    settlement of the side that loses the race is dropped by
    [Promise.race]. A timer that a failing body leaves armed fires after
    the firing has ended; that late warning is not part of the trace. *)
Definition race (t : ScheduledTask.t) (timeoutMs : option Z) : M JsValue :=
  _ ← emit Execute;
  match bodyRun env with
  | ThrowsSync e => throw e
  | SettlesFirst (Resolved v) => ret v
  | SettlesFirst (Rejected e) => throw e
  | TimerFirst _ =>
      _ ← log Warn ("Scheduled task " +:+ ScheduledTask.id t +:+ " timed out after "
                    +:+ showDelay timeoutMs +:+ "ms");
      throw (ErrorInstance "Task timed out")
  end.

Definition errorMessageOf (error : Thrown) : string :=
  match error with
  | ErrorInstance message => message
  | NonError _ => "Unknown error"
  end.

(** Lines 43 to 51: the row is ensured and the conditional update is
    sent; the result is [taskEntity.affected], a row count. *)
Definition claimStep (t : ScheduledTask.t) : M nat :=
  _ ← ensureTaskIsRegistered t;
  statement OpClaim (tryClaim (ScheduledTask.id t) (claimTime env)).

(** Lines 56 to 101: what the holder of the lease does. *)
Definition runClaimed (t : ScheduledTask.t) : M unit :=
  let id := ScheduledTask.id t in
  _ ← log Verbose ("Executing scheduled task " +:+ dquote +:+ id +:+ dquote);
  tryCatch
    (timeoutMs ← evalMs (resolveTimeout t);
     _ ← emit (SetTimeout timeoutMs);
     result ← race t timeoutMs;
     _ ← emit ClearTimeout;
     _ ← statement OpReleaseSuccess
           (repoUpdate id (successPatch (finishTime env) result));
     log Verbose ("Scheduled task " +:+ dquote +:+ id +:+ dquote
                  +:+ " completed successfully"))
    (fun error =>
       let errorMessage := errorMessageOf error in
       _ ← log Error ("Scheduled task " +:+ dquote +:+ id +:+ dquote
                      +:+ " failed with error: " +:+ errorMessage);
       _ ← statement OpReleaseFailure (repoUpdate id (failurePatch errorMessage));
       ret tt).

(** The callback returned by [executeTask(task)], applied to one
    firing. *)
Definition executeTask (t : ScheduledTask.t) : M unit :=
  if isServer env then ret tt
  else
    affected ← claimStep t;
    if bool_decide (affected = 0%nat) then ret tt
    else runClaimed t.

End Firing.

(** ** Several worker processes on one table

    Every statement is atomic, so a run of the fleet is a sequence of
    statements, each sent by one process. A process is [Holding] from
    its successful claim to its release. *)
Inductive Phase := Idle | Holding.

Record Fleet := {
  table : Store;
  phase : nat -> Phase;
}.

Definition isRelease (p : Patch) : Prop :=
  (exists now result, p = successPatch now result) \/
  (exists errorMessage, p = failurePatch errorMessage).

Inductive fleetStep (id : string) : Fleet -> Fleet -> Prop :=
| step_ensure f (p : nat) :
    phase f p = Idle ->
    fleetStep id f {| table := ensureRow id (table f); phase := phase f |}
| step_claim f (p : nat) (now : Time) :
    phase f p = Idle ->
    fleetStep id f
      {| table := (tryClaim id now (table f)).1;
         phase := <[p := if bool_decide ((tryClaim id now (table f)).2 = 0%nat)
                         then Idle else Holding]> (phase f) |}
| step_release f (p : nat) (patch : Patch) :
    phase f p = Holding ->
    isRelease patch ->
    fleetStep id f
      {| table := (repoUpdate id patch (table f)).1;
         phase := <[p := Idle]> (phase f) |}.

End Strategy.

(** The claim statements of several processes, in the order in which the
    store serialises them; each process learns its own [affected]. *)
Fixpoint claimAll (id : string) (attempts : list (nat * Time)) (s : Store)
  : Store * list (nat * nat) :=
  match attempts with
  | [] => (s, [])
  | (p, now) :: rest =>
      let '(s1, affected) := tryClaim id now s in
      let '(s2, outcomes) := claimAll id rest s1 in
      (s2, (p, affected) :: outcomes)
  end.

(** The processes whose claim affected a row. *)
Definition winners (outcomes : list (nat * nat)) : list nat :=
  (List.filter (fun o => negb (bool_decide (o.2 = 0%nat))) outcomes).*1.

(** ** Vocabulary of the properties *)

(** The fleet invariant: one holder at most, and the rows of the id exist
    and are all locked while there is one. *)
Definition fleetInv (id : string) (f : Fleet) : Prop :=
  (forall p q, phase f p = Holding -> phase f q = Holding -> p = q) /\
  (forall p, phase f p = Holding ->
     rowsFor id (table f) <> [] /\ List.filter (claimable id) (table f) = []).

(** The store answers every statement. *)
Definition storeUp (env : Env) : Prop := forall op, storeFault env op = None.

(** The statements, the messages logged at a level, and the number of
    invocations of the task body recorded in a trace. *)
Definition statementsOf (tr : list Event) : list StoreOp :=
  omap (fun ev => match ev with Statement op => Some op | _ => None end) tr.

Definition logsAt (level : LogLevel) (tr : list Event) : list string :=
  omap (fun ev =>
          match ev, level with
          | Log Verbose m, Verbose | Log Warn m, Warn | Log Error m, Error => Some m
          | _, _ => None
          end) tr.

Definition executions (tr : list Event) : nat :=
  length (List.filter (fun ev => match ev with Execute => true | _ => false end) tr).

(** The same firing with another behaviour of the task body. *)
Definition withBody (env : Env) (b : BodyRun) : Env :=
  {| isServer := isServer env;
     storeFault := storeFault env;
     claimTime := claimTime env;
     finishTime := finishTime env;
     bodyRun := b |}.

(** The report shape in the words of the reporting contract. *)
Definition reportShape (r : ScheduledTaskRecord) : TaskReport.t :=
  {| TaskReport.id := taskId r;
     TaskReport.lastExecutedAt := lastExecutedAt r;
     TaskReport.isRunning := match lockedAt r with Some _ => true | None => false end;
     TaskReport.lastResult := lastResult r;
     TaskReport.enabled := enabled r |}.

(** The table as it is when the claim statement reaches it. *)
Definition ensured (dE : bool) (dL : JsValue) (t : ScheduledTask.t) (w : World) : Store :=
  if registeredIn (ScheduledTask.id t) (tasks w) then store w
  else ensureRow dE dL (ScheduledTask.id t) (store w).

(** [enabled] forced to [b], the other columns kept. *)
Definition setEnabled (b : bool) (r : ScheduledTaskRecord) : ScheduledTaskRecord :=
  {| taskId := taskId r;
     enabled := b;
     lockedAt := lockedAt r;
     lastExecutedAt := lastExecutedAt r;
     lastResult := lastResult r |}.

(** The WHERE clause of the claim, spelled out. *)
Definition unlockedWithId (id : string) (r : ScheduledTaskRecord) : bool :=
  bool_decide (taskId r = id /\ lockedAt r = None).

Definition lockAt (now : Time) (r : ScheduledTaskRecord) : ScheduledTaskRecord :=
  {| taskId := taskId r;
     enabled := enabled r;
     lockedAt := Some now;
     lastExecutedAt := lastExecutedAt r;
     lastResult := lastResult r |}.

(** ** A sample deployment, for concrete runs *)

(** A stand-in for the [ms] package on the inputs used below: two
    durations, the empty string and [undefined], on which [ms] throws, and
    every other string taken as one that [ms] cannot parse. *)
Definition sampleMs (o : option string) : MsResult :=
  match o with
  | Some "30s" => MsValue (Some 30000)
  | Some "1h" => MsValue (Some 3600000)
  | Some EmptyString =>
      MsThrows ("val is not a non-empty string or a valid number. val="
                +:+ dquote +:+ dquote)
  | Some _ => MsValue None
  | None => MsThrows "val is not a non-empty string or a valid number. val=undefined"
  end.

Definition sampleOptions : DefaultSchedulerPluginOptions :=
  {| defaultTimeout := Some (DNumber 60000) |}.

Definition sampleTask : ScheduledTask.t :=
  {| ScheduledTask.id := "cleanup"; ScheduledTask.timeout := None |}.

(** A worker process, a store that answers, the claim at instant 100 and
    the completion at instant 200. *)
Definition sampleEnv (b : BodyRun) : Env :=
  {| isServer := false;
     storeFault := fun _ => None;
     claimTime := 100;
     finishTime := 200;
     bodyRun := b |}.

Definition sameOp (a b : StoreOp) : bool :=
  match a, b with
  | OpInsert, OpInsert | OpClaim, OpClaim
  | OpReleaseSuccess, OpReleaseSuccess | OpReleaseFailure, OpReleaseFailure => true
  | _, _ => false
  end.

(** The same, with the store failing on one statement. *)
Definition faultyEnv (op : StoreOp) (message : string) (b : BodyRun) : Env :=
  {| isServer := false;
     storeFault := fun o => if sameOp o op then Some message else None;
     claimTime := 100;
     finishTime := 200;
     bodyRun := b |}.

Definition emptyWorld : World := {| store := []; tasks := ∅; trace := [] |}.

Definition disabledRow : ScheduledTaskRecord :=
  {| taskId := "cleanup";
     enabled := false;
     lockedAt := None;
     lastExecutedAt := None;
     lastResult := JNull |}.

Definition idleRow : ScheduledTaskRecord :=
  {| taskId := "cleanup";
     enabled := true;
     lockedAt := None;
     lastExecutedAt := None;
     lastResult := JNull |}.

Definition lockedRow : ScheduledTaskRecord :=
  {| taskId := "cleanup";
     enabled := true;
     lockedAt := Some 50;
     lastExecutedAt := None;
     lastResult := JNull |}.

Definition worldOf (s : Store) : World := {| store := s; tasks := ∅; trace := [] |}.

(** The world right after the claim step of the sample task. *)
Definition sampleClaimed (env : Env) (w : World) : World :=
  (claimStep true JNull env sampleTask w).2.

Definition sampleRun (env : Env) (w : World) : Completion unit * World :=
  executeTask true JNull sampleMs sampleOptions env sampleTask w.

(** ** Vocabulary of the further properties *)


(** The columns of a row that no statement of the strategy writes. *)
Definition keyOf (r : ScheduledTaskRecord) : string * bool := (taskId r, enabled r).

(** The shapes a firing's sequence of statements can take: an optional
    insert, then nothing, or the claim followed by at most the two release
    updates in their order. *)
Definition afterClaimOk (ops : list StoreOp) : bool :=
  match ops with
  | [] | [OpReleaseSuccess] | [OpReleaseFailure]
  | [OpReleaseSuccess; OpReleaseFailure] => true
  | _ => false
  end.

Definition fromClaimOk (ops : list StoreOp) : bool :=
  match ops with
  | [] => true
  | OpClaim :: rest => afterClaimOk rest
  | _ => false
  end.

Definition protocolOk (ops : list StoreOp) : bool :=
  match ops with
  | OpInsert :: rest => fromClaimOk rest
  | _ => fromClaimOk ops
  end.

Definition clearings (tr : list Event) : nat :=
  length (List.filter (fun ev => match ev with ClearTimeout => true | _ => false end) tr).

Definition timersSet (tr : list Event) : list (option Z) :=
  omap (fun ev => match ev with SetTimeout d => Some d | _ => None end) tr.

(** * The request-context cache

    [RequestContextCacheService]
    (packages/core/src/cache/request-context-cache.service.ts): a [WeakMap]
    from request contexts to [Map]s. Contexts and keys are compared by
    identity, so both are taken from any countable type. *)

(** JavaScript truthiness, as tested by [if (result)]. *)
Definition truthy (v : JsValue) : bool :=
  match v with
  | JUndefined | JNull => false
  | JBool b => b
  | JNumber n => negb (bool_decide (n = 0))
  | JString EmptyString => false
  | JString _ => true
  | JObject _ => true
  end.

Module RequestContextCacheService.
Section Cache.

Context {Ctx : Type} `{Countable Ctx} {K : Type} `{Countable K}.

(** What the caller's [getDefault] acts on. *)
Context {S : Type}.

(** [getContextCache(ctx)]: the map of the context, created on first use. *)
Definition getContextCache (ctx : Ctx) (caches : gmap Ctx (gmap K JsValue))
  : gmap K JsValue * gmap Ctx (gmap K JsValue) :=
  match caches !! ctx with
  | Some ctxCache => (ctxCache, caches)
  | None => (∅, <[ctx := ∅]> caches)
  end.

(** [set(ctx, key, val)]: the map handed out by [getContextCache] is the
    one held in [caches], so writing to it is writing it back. *)
Definition set (ctx : Ctx) (key : K) (val : JsValue) (caches : gmap Ctx (gmap K JsValue))
  : gmap Ctx (gmap K JsValue) :=
  let '(ctxCache, caches1) := getContextCache ctx caches in
  <[ctx := <[key := val]> ctxCache]> caches1.

(** [get(ctx, key, getDefault)]: the value returned (or the exception
    thrown by [getDefault]), the caches and the caller's state. *)
Definition get (ctx : Ctx) (key : K) (getDefault : option (S -> Completion JsValue * S))
    (caches : gmap Ctx (gmap K JsValue)) (st : S)
  : Completion JsValue * gmap Ctx (gmap K JsValue) * S :=
  let '(ctxCache, caches1) := getContextCache ctx caches in
  let result := default JUndefined (ctxCache !! key) in
  if truthy result then (Normal result, caches1, st)
  else
    match getDefault with
    | Some f =>
        match f st with
        | (Normal defaultResultOrPromise, st') =>
            (Normal defaultResultOrPromise,
             <[ctx := <[key := defaultResultOrPromise]> ctxCache]> caches1, st')
        | (Throw e, st') => (Throw e, caches1, st')
        end
    | None => (Normal JUndefined, caches1, st)
    end.

(** What is stored under a key of a context, if anything. *)
Definition peek (ctx : Ctx) (key : K) (caches : gmap Ctx (gmap K JsValue)) : option JsValue :=
  caches !! ctx ≫= (fun ctxCache => ctxCache !! key).

End Cache.
End RequestContextCacheService.

(** * Default column visibility of the paginated list table

    [getColumnVisibility]
    (packages/dashboard/src/components/shared/paginated-list-data-table.tsx).
    An object is the finite map of its own properties; a property may hold
    [undefined], which is [None] here. *)

Module FieldInfo.
Record t := {
  name : string;
  type : string;
  isScalar : bool;
}.
End FieldInfo.

(** [Object.values(o).every(v => v === b)] *)
Definition everyValueIs (b : bool) (o : gmap string (option bool)) : bool :=
  bool_decide (map_Forall (fun _ v => v = Some b) o).

(** [Object.fromEntries(fields.map(f => [f.name, b]))] *)
Definition fromEntries (b : bool) (fields : list FieldInfo.t) : gmap string (option bool) :=
  foldl (fun o f => <[FieldInfo.name f := Some b]> o) ∅ fields.

(** [{ ...a, ...b }] *)
Definition spread (a b : gmap string (option bool)) : gmap string (option bool) := b ∪ a.

Definition hiddenByDefault : gmap string (option bool) :=
  <["updatedAt" := Some false]> (<["createdAt" := Some false]> (<["id" := Some false]> ∅)).

Definition getColumnVisibility (fields : list FieldInfo.t)
    (defaultVisibility : option (gmap string (option bool)))
  : gmap string (option bool) :=
  let allDefaultsTrue :=
    match defaultVisibility with
    | Some o => everyValueIs true o
    | None => false
    end in
  let allDefaultsFalse :=
    match defaultVisibility with
    | Some o => everyValueIs false o
    | None => false
    end in
  spread
    (spread
       (spread hiddenByDefault (if allDefaultsTrue then fromEntries false fields else ∅))
       (if allDefaultsFalse then fromEntries true fields else ∅))
    (default ∅ defaultVisibility).

(** * Request headers of the admin client

    The callback given to [setContext] in [createApollo]
    (packages/admin-ui/src/lib/core/src/data/data.module.ts). The two
    tokens are what [localStorageService.get] returns, [None] when nothing
    is stored. *)

(** Truthiness of a stored token. *)
Definition present (token : option string) : bool :=
  match token with
  | Some EmptyString | None => false
  | Some _ => true
  end.

(** [headers[key] = value] on a plain object, for a string [value]: the
    key [__proto__] is the accessor of [Object.prototype], whose setter
    ignores a string, so that no property is created under it. *)
Definition assign (key value : string) (headers : gmap string string) : gmap string string :=
  if bool_decide (key = "__proto__") then headers else <[key := value]> headers.

Definition requestHeaders (channelToken authToken tokenMethod channelTokenKey : option string)
  : gmap string string :=
  let headers : gmap string string := ∅ in
  let headers :=
    if present channelToken
    then assign (default "vendure-token" channelTokenKey) (default EmptyString channelToken)
           headers
    else headers in
  let headers :=
    if bool_decide (tokenMethod = Some "bearer")
    then if present authToken
         then <["authorization" := "Bearer " +:+ default EmptyString authToken]> headers
         else headers
    else headers in
  <["Apollo-Require-Preflight" := "true"]> headers.

(** ** Samples for the cache, the table and the headers *)

(** A [getDefault] that returns [v] and counts its calls. *)
Definition countingDefault (v : JsValue) (calls : nat) : Completion JsValue * nat :=
  (Normal v, S calls).

Definition throwingDefault (message : string) (calls : nat) : Completion JsValue * nat :=
  (Throw (ErrorInstance message), S calls).

Definition noCaches : gmap nat (gmap string JsValue) := ∅.

Definition sampleFields : list FieldInfo.t :=
  [ {| FieldInfo.name := "id"; FieldInfo.type := "ID"; FieldInfo.isScalar := true |};
    {| FieldInfo.name := "name"; FieldInfo.type := "String"; FieldInfo.isScalar := true |};
    {| FieldInfo.name := "price"; FieldInfo.type := "Money"; FieldInfo.isScalar := true |} ].

Definition onlyName : gmap string (option bool) := <["name" := Some true]> ∅.

Definition notName : gmap string (option bool) := <["name" := Some false]> ∅.

Definition timedTask : ScheduledTask.t :=
  {| ScheduledTask.id := "cleanup"; ScheduledTask.timeout := Some (DNumber 5000) |}.

Definition badTimeoutOptions : DefaultSchedulerPluginOptions := {| defaultTimeout := None |}.

Definition otherRow : ScheduledTaskRecord :=
  {| taskId := "digest";
     enabled := true;
     lockedAt := Some 7;
     lastExecutedAt := Some 3;
     lastResult := JString "sent" |}.

Ltac run_js :=
  unfold runClaimed, claimStep, ensureTaskIsRegistered, race, evalMs, statement,
    markRegistered, tryCatch, log, emit, throw, mbind, M_bind, bind, mret, M_ret, ret;
  simpl.

(** ** Properties of the statements *)

Lemma sqlUpdate_store cond p s :
  (sqlUpdate cond p s).1 = List.map (fun r => if cond r then applyPatch p r else r) s.
Proof.
  induction s as [|r rest IH]; simpl; [done|].
  destruct (sqlUpdate cond p rest) as [rest' n]; simpl in *.
  destruct (cond r); simpl; by rewrite IH.
Qed.

Lemma sqlUpdate_affected cond p s :
  (sqlUpdate cond p s).2 = length (List.filter cond s).
Proof.
  induction s as [|r rest IH]; simpl; [done|].
  destruct (sqlUpdate cond p rest) as [rest' n]; simpl in *.
  destruct (cond r); simpl; by rewrite IH.
Qed.

Lemma sqlUpdate_none cond p s :
  List.filter cond s = [] -> sqlUpdate cond p s = (s, 0%nat).
Proof.
  induction s as [|r rest IH]; simpl; [done|].
  destruct (cond r) eqn:E; [done|].
  intros H. by rewrite (IH H).
Qed.

Lemma hasTaskId_applyPatch id p r : hasTaskId id (applyPatch p r) = hasTaskId id r.
Proof. done. Qed.

(** An update never changes which rows carry a given id. *)
Lemma rowsFor_sqlUpdate id cond p s :
  rowsFor id (sqlUpdate cond p s).1 =
  List.map (fun r => if cond r then applyPatch p r else r) (rowsFor id s).
Proof.
  rewrite sqlUpdate_store. unfold rowsFor.
  induction s as [|r rest IH]; simpl; [done|].
  destruct (cond r) eqn:Ec; rewrite ?hasTaskId_applyPatch;
    destruct (hasTaskId id r) eqn:Eh; simpl; rewrite ?Ec, IH; done.
Qed.

(** After a claim no row of that id is left unlocked... *)
Lemma claimable_after_claim id now s :
  List.filter (claimable id) (tryClaim id now s).1 = [].
Proof.
  unfold tryClaim. rewrite sqlUpdate_store.
  induction s as [|r rest IH]; simpl; [done|].
  destruct (claimable id r) eqn:E; simpl.
  - unfold claimable; simpl. rewrite andb_false_r. exact IH.
  - rewrite E. exact IH.
Qed.

(** ... so that a second claim affects nothing and leaves the table as it
    is. *)
Lemma tryClaim_again id now now' s :
  tryClaim id now' (tryClaim id now s).1 = ((tryClaim id now s).1, 0%nat).
Proof. apply sqlUpdate_none, claimable_after_claim. Qed.

Lemma claimAll_locked id attempts s :
  List.filter (claimable id) s = [] ->
  claimAll id attempts s = (s, List.map (fun a => (a.1, 0%nat)) attempts).
Proof.
  intros H. induction attempts as [|[p now] rest IH]; simpl; [done|].
  unfold tryClaim. rewrite (sqlUpdate_none _ _ _ H). by rewrite IH.
Qed.

Lemma winners_zero (attempts : list (nat * Time)) :
  winners (List.map (fun a => (a.1, 0%nat)) attempts) = [].
Proof. induction attempts as [|a rest IH]; simpl; [done|]. exact IH. Qed.

Lemma existsb_rowsFor id s :
  List.existsb (hasTaskId id) s = negb (bool_decide (rowsFor id s = [])).
Proof.
  unfold rowsFor. induction s as [|r rest IH]; simpl; [done|].
  destruct (hasTaskId id r); simpl; [done|exact IH].
Qed.

Lemma claimable_rowsFor id s :
  List.filter (claimable id) s <> [] -> rowsFor id s <> [].
Proof.
  unfold rowsFor. induction s as [|r rest IH]; simpl; [done|].
  unfold claimable at 1. destruct (hasTaskId id r); simpl; [done|exact IH].
Qed.

Lemma fleetInv_step dE dL id f f' :
  fleetInv id f -> fleetStep dE dL id f f' -> fleetInv id f'.
Proof.
  intros [Huniq Hlocked] Hstep.
  destruct Hstep as [f p Hp | f p now Hp | f p patch Hp Hrel]; split; simpl.
  - exact Huniq.
  - intros q Hq. destruct (Hlocked q Hq) as [Hrows Hnone].
    unfold ensureRow, insertOrIgnore. rewrite existsb_rowsFor.
    rewrite bool_decide_eq_false_2 by exact Hrows. simpl. done.
  - intros a b Ha Hb.
    destruct (decide (p = a)) as [Hpa|Hpa], (decide (p = b)) as [Hpb|Hpb];
      [congruence| | |].
    + subst a. rewrite fn_lookup_insert in Ha. rewrite fn_lookup_insert_ne in Hb by done.
      case_bool_decide as Haff; [done|].
      destruct (Hlocked b Hb) as [_ Hnone].
      unfold tryClaim in Haff. rewrite sqlUpdate_affected, Hnone in Haff. done.
    + subst b. rewrite fn_lookup_insert in Hb. rewrite fn_lookup_insert_ne in Ha by done.
      case_bool_decide as Haff; [done|].
      destruct (Hlocked a Ha) as [_ Hnone].
      unfold tryClaim in Haff. rewrite sqlUpdate_affected, Hnone in Haff. done.
    + rewrite fn_lookup_insert_ne in Ha, Hb by done. by apply Huniq.
  - intros q Hq. split; [|apply claimable_after_claim].
    destruct (decide (p = q)) as [->|Hpq].
    + rewrite fn_lookup_insert in Hq. case_bool_decide as Haff; [done|].
      unfold tryClaim in Haff. rewrite sqlUpdate_affected in Haff.
      unfold tryClaim. rewrite rowsFor_sqlUpdate.
      assert (rowsFor id (table f) <> []) as Hrows.
      { apply claimable_rowsFor. intros E. by rewrite E in Haff. }
      destruct (rowsFor id (table f)); done.
    + rewrite fn_lookup_insert_ne in Hq by done.
      destruct (Hlocked q Hq) as [Hrows Hnone].
      unfold tryClaim. by rewrite (sqlUpdate_none _ _ _ Hnone).
  - intros a b Ha Hb.
    destruct (decide (p = a)) as [->|Hpa]; [by rewrite fn_lookup_insert in Ha|].
    destruct (decide (p = b)) as [->|Hpb]; [by rewrite fn_lookup_insert in Hb|].
    rewrite fn_lookup_insert_ne in Ha, Hb by done. by apply Huniq.
  - intros q Hq.
    destruct (decide (p = q)) as [->|Hpq]; [by rewrite fn_lookup_insert in Hq|].
    rewrite fn_lookup_insert_ne in Hq by done.
    by rewrite (Huniq p q Hp Hq) in Hpq.
Qed.

Lemma fleetInv_reachable dE dL id f f' :
  fleetInv id f -> rtc (fleetStep dE dL id) f f' -> fleetInv id f'.
Proof.
  intros Hinv Hrun. induction Hrun as [|f g h Hstep _ IH]; [done|].
  apply IH. eapply fleetInv_step; eauto.
Qed.

Lemma fleetInv_idle id s : fleetInv id {| table := s; phase := fun _ => Idle |}.
Proof. split; simpl; intros; discriminate. Qed.

Lemma claimable_filter id s :
  List.filter (claimable id) s =
  List.filter (fun r => bool_decide (lockedAt r = None)) (rowsFor id s).
Proof.
  unfold rowsFor. induction s as [|r rest IH]; simpl; [done|].
  unfold claimable at 1. destruct (hasTaskId id r); simpl; by rewrite IH.
Qed.

Lemma claimAll_cons id p now rest s :
  claimAll id ((p, now) :: rest) s =
  ((tryClaim id now s).1,
   (p, (tryClaim id now s).2) :: List.map (fun a => (a.1, 0%nat)) rest).
Proof.
  simpl. destruct (tryClaim id now s) as [s1 affected] eqn:E.
  assert (s1 = (tryClaim id now s).1) as -> by by rewrite E.
  by rewrite (claimAll_locked id rest _ (claimable_after_claim id now s)).
Qed.

Lemma winners_cons p affected outcomes :
  winners ((p, affected) :: outcomes) =
  if bool_decide (affected = 0%nat) then winners outcomes else p :: winners outcomes.
Proof. unfold winners. simpl. by case_bool_decide. Qed.

(** C1. However the store serialises the claim statements of any number
    of processes, at most one of them affects a row; with one row for the
    id, the first statement affects exactly that row when it was unlocked
    and every other statement affects none, and none does when it was
    locked. Hence, in every reachable state of a fleet of processes that
    ensure, claim and release, at most one process holds the lease, and the
    rows of the id are locked while it does. *)
Theorem C1_mutual_exclusion (dE : bool) (dL : JsValue) (id : string)
    (attempts : list (nat * Time)) (s : Store) :
  let outcomes := (claimAll id attempts s).2 in
  (length (winners outcomes) <= 1)%nat /\
  (forall r p now rest,
     rowsFor id s = [r] -> lockedAt r = None -> attempts = (p, now) :: rest ->
     outcomes = (p, 1%nat) :: List.map (fun a => (a.1, 0%nat)) rest /\
     winners outcomes = [p]) /\
  (forall r,
     rowsFor id s = [r] -> lockedAt r <> None ->
     outcomes = List.map (fun a => (a.1, 0%nat)) attempts /\
     winners outcomes = []) /\
  (forall f,
     rtc (fleetStep dE dL id) {| table := s; phase := fun _ => Idle |} f ->
     (forall p q, phase f p = Holding -> phase f q = Holding -> p = q) /\
     (forall p r, phase f p = Holding -> r ∈ rowsFor id (table f) -> lockedAt r <> None)).
Proof.
  intros outcomes. subst outcomes. split; [|split; [|split]].
  - destruct attempts as [|[p now] rest]; [simpl; lia|].
    rewrite claimAll_cons. cbn [snd]. rewrite winners_cons, winners_zero.
    case_bool_decide; simpl; lia.
  - intros r p now rest Hrow Hnull ->. rewrite claimAll_cons. simpl.
    unfold tryClaim. rewrite sqlUpdate_affected, claimable_filter, Hrow. simpl.
    rewrite bool_decide_eq_true_2 by done. split; [done|].
    by rewrite winners_cons, winners_zero.
  - intros r Hrow Hlocked.
    rewrite claimAll_locked; [split; [done|apply winners_zero]|].
    rewrite claimable_filter, Hrow. simpl. by rewrite bool_decide_eq_false_2.
  - intros f Hrun.
    destruct (fleetInv_reachable dE dL id _ _ (fleetInv_idle id s) Hrun) as [Huniq Hlocked].
    split; [exact Huniq|].
    intros p r Hp Hr Hnull.
    destruct (Hlocked p Hp) as [_ Hnone].
    rewrite claimable_filter in Hnone.
    assert (r ∈ List.filter (fun r => bool_decide (lockedAt r = None))
                  (rowsFor id (table f))) as Hin.
    { apply list_elem_of_In, filter_In. split; [by apply list_elem_of_In|].
      by apply bool_decide_eq_true_2. }
    rewrite Hnone in Hin. by apply elem_of_nil in Hin.
Qed.

(** ** Properties of one firing *)

Lemma rowsFor_repoUpdate id p s :
  rowsFor id (repoUpdate id p s).1 = List.map (applyPatch p) (rowsFor id s).
Proof.
  unfold repoUpdate. rewrite rowsFor_sqlUpdate. apply map_ext_in.
  intros r Hr. apply filter_In in Hr as [_ ->]. done.
Qed.

Lemma getOne_head id s : getOne id s = head (rowsFor id s).
Proof.
  unfold getOne, rowsFor. induction s as [|r rest IH]; simpl; [done|].
  by destruct (hasTaskId id r).
Qed.

Lemma isRelease_unlocks p : isRelease p -> set_lockedAt p = Some None.
Proof. by intros [(now & result & ->)|(m & ->)]. Qed.

(** What the claim step leaves behind when neither of its statements
    fails. *)
Lemma claimStep_inv dE dL env t w affected w1 :
  claimStep dE dL env t w = (Normal affected, w1) ->
  store w1 = (tryClaim (ScheduledTask.id t) (claimTime env) (ensured dE dL t w)).1 /\
  affected = (tryClaim (ScheduledTask.id t) (claimTime env) (ensured dE dL t w)).2 /\
  trace w1 = trace w
             ++ (if registeredIn (ScheduledTask.id t) (tasks w) then [] else [Statement OpInsert])
             ++ [Statement OpClaim].
Proof.
  unfold ensured. run_js.
  destruct (registeredIn (ScheduledTask.id t) (tasks w)); simpl.
  - destruct (storeFault env OpClaim); [done|].
    intros [= <- <-]. simpl. done.
  - destruct (storeFault env OpInsert); simpl; [done|].
    destruct (storeFault env OpClaim); [done|].
    intros [= <- <-]. simpl. by rewrite <- (assoc_L (++)).
Qed.

(** The holder of the lease always reaches a release statement, and the
    firing ends there, provided the failure-path update itself goes
    through. *)
Lemma runClaimed_release ms opts env t w :
  storeFault env OpReleaseFailure = None ->
  exists patch tr,
    isRelease patch /\
    (last (statementsOf tr) = Some OpReleaseSuccess \/
     last (statementsOf tr) = Some OpReleaseFailure) /\
    runClaimed ms opts env t w =
      (Normal tt,
       {| store := (repoUpdate (ScheduledTask.id t) patch (store w)).1;
          tasks := tasks w;
          trace := trace w ++ tr |}).
Proof.
  intros Hf. run_js.
  destruct (resolveTimeout ms opts t) as [d|m]; simpl.
  - destruct (bodyRun env) as [e|[v|e]|later]; simpl; rewrite ?Hf.
    all: try destruct (storeFault env OpReleaseSuccess) eqn:Hs; simpl; rewrite ?Hf.
    all: eexists; eexists; split;
      [|split; [|rewrite <- ?(assoc_L (++)); simpl; reflexivity]];
      [unfold isRelease; eauto|simpl; eauto].
  - rewrite Hf. eexists; eexists; split;
      [|split; [|rewrite <- ?(assoc_L (++)); simpl; reflexivity]];
      [unfold isRelease; eauto|simpl; eauto].
Qed.

Lemma executeTask_claimed dE dL ms opts env t w affected w1 :
  isServer env = false ->
  claimStep dE dL env t w = (Normal affected, w1) ->
  affected <> 0%nat ->
  executeTask dE dL ms opts env t w = runClaimed ms opts env t w1.
Proof.
  intros Hserver Hclaim Haff. unfold executeTask. rewrite Hserver.
  unfold mbind, M_bind, bind. rewrite Hclaim.
  by rewrite bool_decide_eq_false_2.
Qed.

Lemma claimed_rows dE dL env t w affected w1 :
  claimStep dE dL env t w = (Normal affected, w1) ->
  affected <> 0%nat ->
  rowsFor (ScheduledTask.id t) (store w1) <> [].
Proof.
  intros Hclaim Haff. apply claimStep_inv in Hclaim as (Hs & Ha & _).
  rewrite Hs. unfold tryClaim in *. rewrite rowsFor_sqlUpdate.
  rewrite sqlUpdate_affected in Ha.
  assert (rowsFor (ScheduledTask.id t) (ensured dE dL t w) <> []) as Hrows.
  { apply claimable_rowsFor. intros E. rewrite E in Ha. done. }
  destruct (rowsFor _ (ensured dE dL t w)); done.
Qed.

(** C2. An attempt that claims the lease ends with a release statement
    whatever the task body does (value, failure, synchronous throw, timeout,
    or a timeout option that [ms] rejects): the callback's promise is
    fulfilled, the last statement of the firing is one of the two release
    updates, and afterwards every row of the task has [lockedAt] null, so
    that [getTask] reports [isRunning = false]. *)
Theorem C2_release_on_every_path dE dL ms opts env t w affected w1 :
  isServer env = false ->
  storeUp env ->
  claimStep dE dL env t w = (Normal affected, w1) ->
  affected <> 0%nat ->
  exists patch tr w2,
    executeTask dE dL ms opts env t w = (Normal tt, w2) /\
    trace w2 = trace w1 ++ tr /\
    (last (statementsOf tr) = Some OpReleaseSuccess \/
     last (statementsOf tr) = Some OpReleaseFailure) /\
    set_lockedAt patch = Some None /\
    store w2 = (repoUpdate (ScheduledTask.id t) patch (store w1)).1 /\
    (forall r, r ∈ rowsFor (ScheduledTask.id t) (store w2) -> lockedAt r = None) /\
    (exists report,
       getTask (ScheduledTask.id t) (store w2) = Some report /\
       TaskReport.isRunning report = false).
Proof.
  intros Hserver Hup Hclaim Haff.
  destruct (runClaimed_release ms opts env t w1 (Hup OpReleaseFailure))
    as (patch & tr & Hrel & Hlast & Hrun).
  pose proof (isRelease_unlocks patch Hrel) as Hunlock.
  pose proof (claimed_rows _ _ _ _ _ _ _ Hclaim Haff) as Hrows.
  exists patch, tr. eexists. split.
  { rewrite (executeTask_claimed _ _ _ _ _ _ _ _ _ Hserver Hclaim Haff). exact Hrun. }
  simpl. repeat split; try done.
  - intros r Hr. rewrite rowsFor_repoUpdate in Hr.
    apply list_elem_of_In, in_map_iff in Hr as (r0 & <- & _).
    simpl. by rewrite Hunlock.
  - unfold getTask. rewrite getOne_head, rowsFor_repoUpdate.
    destruct (rowsFor (ScheduledTask.id t) (store w1)) as [|r0 rest]; [done|].
    simpl. eexists. split; [reflexivity|]. simpl. by rewrite Hunlock.
Qed.

Lemma tryClaim_zero id now s :
  (tryClaim id now s).2 = 0%nat -> (tryClaim id now s).1 = s.
Proof.
  unfold tryClaim. rewrite sqlUpdate_affected. intros Hlen.
  apply length_zero_iff_nil in Hlen. by rewrite (sqlUpdate_none _ _ _ Hlen).
Qed.

(** C7. When the claim update affects no row, the callback's promise is
    fulfilled in the world the claim statement left: the table is the one
    the claim found, the claim is the last statement of the firing, the
    task body is not invoked and nothing is logged at any level. *)
Theorem C7_failed_claim_is_silent dE dL ms opts env t w w1 :
  isServer env = false ->
  claimStep dE dL env t w = (Normal 0%nat, w1) ->
  executeTask dE dL ms opts env t w = (Normal tt, w1) /\
  store w1 = ensured dE dL t w /\
  exists tr,
    trace w1 = trace w ++ tr /\
    last (statementsOf tr) = Some OpClaim /\
    executions tr = 0%nat /\
    (forall level, logsAt level tr = []).
Proof.
  intros Hserver Hclaim. split; [|split].
  - unfold executeTask. rewrite Hserver. unfold mbind, M_bind, bind.
    by rewrite Hclaim.
  - apply claimStep_inv in Hclaim as (Hs & Ha & _).
    rewrite Hs. apply tryClaim_zero. by rewrite <- Ha.
  - apply claimStep_inv in Hclaim as (_ & _ & Htr).
    eexists. split; [exact Htr|].
    destruct (registeredIn (ScheduledTask.id t) (tasks w)); simpl;
      repeat split; by intros [].
Qed.

Lemma claimStep_withBody dE dL env b t :
  claimStep dE dL (withBody env b) t = claimStep dE dL env t.
Proof. reflexivity. Qed.

(** C6. When the timer of a claimed attempt fires before the task body
    settles, the firing still ends normally: one warning is logged, which
    names the task and the delay, the only statement after the claim is the
    failure-path release, which writes [lockedAt = null] and
    [lastResult = {error: "Task timed out"}], every row of the task ends
    unlocked with that record, and whatever the abandoned body does later
    (a value, a failure, or nothing) leads to the very same world. *)
Theorem C6_timeout_recorded_once dE dL ms opts env t w affected w1 d later :
  isServer env = false ->
  storeUp env ->
  claimStep dE dL env t w = (Normal affected, w1) ->
  affected <> 0%nat ->
  resolveTimeout ms opts t = MsValue d ->
  bodyRun env = TimerFirst later ->
  exists tr w2,
    executeTask dE dL ms opts env t w = (Normal tt, w2) /\
    store w2 =
      (repoUpdate (ScheduledTask.id t)
         {| set_lockedAt := Some None;
            set_lastExecutedAt := None;
            set_lastResult := Some (JObject [("error", JString "Task timed out")]) |}
         (store w1)).1 /\
    trace w2 = trace w1 ++ tr /\
    statementsOf tr = [OpReleaseFailure] /\
    (exists delay,
       logsAt Warn tr =
         ["Scheduled task " +:+ ScheduledTask.id t +:+ " timed out after "
          +:+ delay +:+ "ms"]) /\
    logsAt Error tr =
      ["Scheduled task " +:+ dquote +:+ ScheduledTask.id t +:+ dquote
       +:+ " failed with error: Task timed out"] /\
    executions tr = 1%nat /\
    (forall r, r ∈ rowsFor (ScheduledTask.id t) (store w2) ->
       lockedAt r = None /\
       lastResult r = JObject [("error", JString "Task timed out")]) /\
    (forall later',
       executeTask dE dL ms opts (withBody env (TimerFirst later')) t w = (Normal tt, w2)).
Proof.
  intros Hserver Hup Hclaim Haff Hms Hbody.
  eexists. eexists. split.
  { rewrite (executeTask_claimed _ _ _ _ _ _ _ _ _ Hserver Hclaim Haff).
    run_js. rewrite Hms. simpl. rewrite Hbody. simpl.
    rewrite (Hup OpReleaseFailure). reflexivity. }
  simpl. split; [reflexivity|].
  split; [by rewrite <- !(assoc_L (++))|].
  split; [reflexivity|]. split; [by exists (showDelay d)|].
  split; [reflexivity|]. split; [reflexivity|]. split.
  - intros r Hr. rewrite rowsFor_repoUpdate in Hr.
    apply list_elem_of_In, in_map_iff in Hr as (r0 & <- & _). done.
  - intros later'.
    rewrite (executeTask_claimed dE dL ms opts (withBody env (TimerFirst later')) t w
               affected w1 Hserver Hclaim Haff).
    run_js. rewrite Hms. simpl. rewrite (Hup OpReleaseFailure).
    by rewrite <- !(assoc_L (++)).
Qed.

(** C10. When the body of a claimed attempt fails, by a synchronous throw
    or by a rejection, the message written to the row is the [message] of
    the thrown value if it is an [Error] instance and the constant
    ["Unknown error"] otherwise: a thrown value that is not an [Error]
    never reaches the row. *)
Theorem C10_unknown_error dE dL ms opts env t w affected w1 d e :
  isServer env = false ->
  storeUp env ->
  claimStep dE dL env t w = (Normal affected, w1) ->
  affected <> 0%nat ->
  resolveTimeout ms opts t = MsValue d ->
  bodyRun env = ThrowsSync e \/ bodyRun env = SettlesFirst (Rejected e) ->
  let message :=
    match e with
    | ErrorInstance m => m
    | NonError _ => "Unknown error"
    end in
  exists tr w2,
    executeTask dE dL ms opts env t w = (Normal tt, w2) /\
    store w2 = (repoUpdate (ScheduledTask.id t) (failurePatch message) (store w1)).1 /\
    trace w2 = trace w1 ++ tr /\
    statementsOf tr = [OpReleaseFailure] /\
    (forall r, r ∈ rowsFor (ScheduledTask.id t) (store w2) ->
       lastResult r = JObject [("error", JString message)]).
Proof.
  intros Hserver Hup Hclaim Haff Hms Hbody message.
  eexists. eexists. split.
  { rewrite (executeTask_claimed _ _ _ _ _ _ _ _ _ Hserver Hclaim Haff).
    run_js. rewrite Hms. simpl.
    destruct Hbody as [-> | ->]; simpl; rewrite (Hup OpReleaseFailure); reflexivity. }
  simpl. split; [by destruct e|].
  split; [by rewrite <- !(assoc_L (++))|].
  split; [reflexivity|].
  intros r Hr. rewrite rowsFor_repoUpdate in Hr.
  apply list_elem_of_In, in_map_iff in Hr as (r0 & <- & _). by destruct e.
Qed.

(** The failure-path update leaves [lastExecutedAt] of every row as it
    was. *)
Lemma failurePatch_lastExecutedAt id message s :
  List.map lastExecutedAt (repoUpdate id (failurePatch message) s).1 =
  List.map lastExecutedAt s.
Proof.
  unfold repoUpdate. rewrite sqlUpdate_store, map_map. apply map_ext.
  intros r. by destruct (hasTaskId id r).
Qed.

(** C4. The task "cleanup" is fired on a worker against an empty table,
    with the completion at instant 200. When its body rejects with
    [new Error("boom")], and likewise when the timer fires first, the row
    ends unlocked with the failure record but with [lastExecutedAt] still
    null; when the body resolves, [lastExecutedAt] is 200. *)
Theorem C4_failure_leaves_lastExecutedAt :
  store (sampleRun (sampleEnv (SettlesFirst (Rejected (ErrorInstance "boom")))) emptyWorld).2
  = [{| taskId := "cleanup"; enabled := true; lockedAt := None;
        lastExecutedAt := None; lastResult := errorRecord "boom" |}] /\
  store (sampleRun (sampleEnv (TimerFirst None)) emptyWorld).2
  = [{| taskId := "cleanup"; enabled := true; lockedAt := None;
        lastExecutedAt := None; lastResult := errorRecord "Task timed out" |}] /\
  store (sampleRun (sampleEnv (SettlesFirst (Resolved (JString "ok")))) emptyWorld).2
  = [{| taskId := "cleanup"; enabled := true; lockedAt := None;
        lastExecutedAt := Some 200; lastResult := JString "ok" |}].
Proof. repeat split; vm_compute; reflexivity. Qed.

Lemma unlockedWithId_claimable id r : claimable id r = unlockedWithId id r.
Proof.
  unfold claimable, unlockedWithId, hasTaskId.
  repeat case_bool_decide; simpl; try done; tauto.
Qed.

(** C3, counterexample. A disabled, unlocked row is claimed when its task
    is fired: the claim step locks it at the claim time and reports one affected row, and the
    firing goes on to invoke the task body. *)
Lemma C3_disabled_row_is_claimed :
  enabled disabledRow = false /\
  tryClaim "cleanup" 100 [disabledRow] = ([lockAt 100 disabledRow], 1%nat) /\
  (claimStep true JNull (sampleEnv (TimerFirst None)) sampleTask (worldOf [disabledRow])).1
  = Normal 1%nat /\
  List.map lockedAt
    (store (claimStep true JNull (sampleEnv (TimerFirst None)) sampleTask
              (worldOf [disabledRow])).2)
  = [Some 100] /\
  executions (trace (sampleRun (sampleEnv (TimerFirst None)) (worldOf [disabledRow])).2)
  = 1%nat.
Proof. repeat split; vm_compute; reflexivity. Qed.

(** C3, amended. The claim statement locks exactly the rows that carry the
    task's id and have a null [lockedAt], and counts them, whatever their
    [enabled] flag: it does not read that column, and no row's flag is
    changed by it. *)
Theorem C3_claim_ignores_enabled (id : string) (now : Time) (s : Store) :
  (tryClaim id now s).1
  = List.map (fun r => if unlockedWithId id r then lockAt now r else r) s /\
  (tryClaim id now s).2 = length (List.filter (unlockedWithId id) s) /\
  (forall b,
     tryClaim id now (List.map (setEnabled b) s)
     = (List.map (setEnabled b) (tryClaim id now s).1, (tryClaim id now s).2)) /\
  List.map enabled (tryClaim id now s).1 = List.map enabled s.
Proof.
  unfold tryClaim. split; [|split; [|split]].
  - rewrite sqlUpdate_store. apply map_ext. intros r.
    by rewrite unlockedWithId_claimable.
  - rewrite sqlUpdate_affected. f_equal. apply filter_ext. intros r.
    by rewrite unlockedWithId_claimable.
  - intros b. apply injective_projections; simpl.
    + rewrite !sqlUpdate_store, !map_map. apply map_ext. intros r.
      unfold claimable, hasTaskId. simpl. by destruct (_ && _).
    + rewrite !sqlUpdate_affected.
      induction s as [|r rest IH]; simpl; [done|].
      change (claimable id (setEnabled b r)) with (claimable id r).
      destruct (claimable id r); simpl; by rewrite IH.
  - rewrite sqlUpdate_store, map_map. apply map_ext. intros r.
    by destruct (claimable id r).
Qed.

(** C5, counterexample. With the store failing on the insert, or on the
    claim update, the callback's promise is rejected with the store's
    error, for a task body that would have resolved. *)
Lemma C5_store_failure_rejects :
  (sampleRun (faultyEnv OpInsert "ECONNREFUSED" (SettlesFirst (Resolved JNull))) emptyWorld).1
  = Throw (ErrorInstance "ECONNREFUSED") /\
  (sampleRun (faultyEnv OpClaim "ECONNREFUSED" (SettlesFirst (Resolved JNull))) emptyWorld).1
  = Throw (ErrorInstance "ECONNREFUSED").
Proof. split; vm_compute; reflexivity. Qed.

(** C5, amended. Whatever the task body does, the callback's promise is
    fulfilled as long as the insert, the claim update and the failure-path
    release go through; a failure of the success-path release is caught
    like a failure of the body. A failure of the insert or of the claim
    update is not contained: the promise is rejected with the store's
    error, and nothing else is done in that firing. *)
Theorem C5_containment dE dL ms opts env t w :
  (storeFault env OpInsert = None ->
   storeFault env OpClaim = None ->
   storeFault env OpReleaseFailure = None ->
   exists w', executeTask dE dL ms opts env t w = (Normal tt, w')) /\
  (forall message,
     isServer env = false ->
     registeredIn (ScheduledTask.id t) (tasks w) = false ->
     storeFault env OpInsert = Some message ->
     executeTask dE dL ms opts env t w
     = (Throw (ErrorInstance message),
        {| store := store w; tasks := tasks w; trace := trace w ++ [Statement OpInsert] |})) /\
  (forall message,
     isServer env = false ->
     storeFault env OpInsert = None ->
     storeFault env OpClaim = Some message ->
     exists w',
       executeTask dE dL ms opts env t w = (Throw (ErrorInstance message), w') /\
       store w' = ensured dE dL t w /\
       last (trace w') = Some (Statement OpClaim)).
Proof.
  split; [|split].
  - intros Hi Hc Hf. unfold executeTask.
    destruct (isServer env); [by eexists|].
    unfold mbind, M_bind, bind.
    destruct (claimStep dE dL env t w) as [[affected|e] w1] eqn:Hclaim.
    + case_bool_decide; [by eexists|].
      destruct (runClaimed_release ms opts env t w1 Hf) as (patch & tr & _ & _ & Hrun).
      rewrite Hrun. by eexists.
    + exfalso. revert Hclaim. run_js.
      destruct (registeredIn _ _); simpl; rewrite ?Hi, ?Hc; simpl; rewrite ?Hc; done.
  - intros message Hserver Hreg Hi. unfold executeTask. rewrite Hserver.
    run_js. by rewrite Hreg, Hi.
  - intros message Hserver Hi Hc. unfold executeTask, ensured. rewrite Hserver.
    run_js. destruct (registeredIn _ _); simpl; rewrite ?Hi, ?Hc; simpl; rewrite ?Hc.
    + eexists. split; [reflexivity|]. simpl. split; [done|]. by rewrite last_snoc.
    + eexists. split; [reflexivity|]. simpl. split; [done|]. by rewrite last_snoc.
Qed.

(** ** Row creation *)

Lemma insertOrIgnore_present dE dL id s :
  rowsFor id s <> [] -> insertOrIgnore dE dL id s = (s, 0%nat).
Proof.
  intros Hrows. unfold insertOrIgnore. rewrite existsb_rowsFor.
  by rewrite bool_decide_eq_false_2.
Qed.

Lemma insertOrIgnore_absent dE dL id s :
  rowsFor id s = [] -> insertOrIgnore dE dL id s = (s ++ [freshRow dE dL id], 1%nat).
Proof.
  intros Hrows. unfold insertOrIgnore. rewrite existsb_rowsFor.
  by rewrite bool_decide_eq_true_2.
Qed.

Lemma rowsFor_ensureRow dE dL id s :
  rowsFor id (ensureRow dE dL id s)
  = match rowsFor id s with [] => [freshRow dE dL id] | _ => rowsFor id s end.
Proof.
  unfold ensureRow. destruct (rowsFor id s) as [|r rest] eqn:Hrows.
  - rewrite insertOrIgnore_absent by done. simpl.
    unfold rowsFor in *. rewrite List.filter_app, Hrows. simpl.
    unfold hasTaskId. simpl. by rewrite bool_decide_eq_true_2.
  - rewrite insertOrIgnore_present; [done|]. by rewrite Hrows.
Qed.

Lemma ensureRow_idem dE dL id s :
  ensureRow dE dL id (ensureRow dE dL id s) = ensureRow dE dL id s.
Proof.
  unfold ensureRow at 1. rewrite insertOrIgnore_present; [done|].
  rewrite rowsFor_ensureRow. by destruct (rowsFor id s).
Qed.

Lemma rowsFor_nil_notin id s : rowsFor id s = [] -> id ∉ taskId <$> s.
Proof.
  unfold rowsFor. induction s as [|r rest IH]; simpl; [intros _; apply not_elem_of_nil|].
  unfold hasTaskId at 1. case_bool_decide as Hid; [done|].
  intros Hrest. apply not_elem_of_cons. split; [congruence|by apply IH].
Qed.

Lemma unique_rowsFor id s :
  NoDup (taskId <$> s) -> (length (rowsFor id s) <= 1)%nat.
Proof.
  unfold rowsFor. induction s as [|r rest IH]; simpl; [lia|].
  rewrite NoDup_cons. intros [Hnotin Hrest].
  unfold hasTaskId at 1. case_bool_decide as Hid; [|by apply IH].
  simpl. destruct (List.filter (hasTaskId id) rest) as [|r' rest'] eqn:Hf; [simpl; lia|].
  exfalso. apply Hnotin.
  assert (In r' (List.filter (hasTaskId id) rest)) as Hin by (rewrite Hf; by left).
  apply filter_In in Hin as [Hin Hr'].
  unfold hasTaskId in Hr'. apply bool_decide_eq_true_1 in Hr'.
  apply list_elem_of_fmap. exists r'. split; [congruence|by apply list_elem_of_In].
Qed.

Lemma ensureRow_unique dE dL id s :
  NoDup (taskId <$> s) -> NoDup (taskId <$> ensureRow dE dL id s).
Proof.
  intros Hs. unfold ensureRow. destruct (rowsFor id s) as [|r rest] eqn:Hrows.
  - rewrite insertOrIgnore_absent by done. simpl. rewrite fmap_app.
    apply NoDup_app. split; [done|]. split; [|apply NoDup_singleton].
    intros x Hx Hx'. apply list_elem_of_singleton in Hx'. simpl in Hx'. subst x.
    by apply (rowsFor_nil_notin _ _ Hrows).
  - rewrite insertOrIgnore_present; [done|]. by rewrite Hrows.
Qed.

Lemma registeredIn_marked t (m : gmap string TaskEntry) :
  registeredIn (ScheduledTask.id t)
    (<[ScheduledTask.id t := {| task := t; isRegistered := true |}]> m) = true.
Proof. unfold registeredIn. by rewrite lookup_insert_eq. Qed.

(** C8. On a table whose task ids are unique, creating the row of a task
    twice is the same as creating it once and leaves exactly one row for
    the id, keeping the ids unique; on an existing row the insert changes
    nothing and is not an error, and a row it creates has null [lockedAt]
    and [lastExecutedAt]. For the strategy: a process that ensures the row,
    ensures it again, and a second process that ensures it too, all
    complete normally and leave the table the first call produced. *)
Theorem C8_ensureRow_idempotent dE dL (id : string) (s : Store) :
  NoDup (taskId <$> s) ->
  ensureRow dE dL id (ensureRow dE dL id s) = ensureRow dE dL id s /\
  length (rowsFor id (ensureRow dE dL id s)) = 1%nat /\
  NoDup (taskId <$> ensureRow dE dL id s) /\
  (rowsFor id s <> [] -> insertOrIgnore dE dL id s = (s, 0%nat)) /\
  (rowsFor id s = [] ->
     ensureRow dE dL id s = s ++ [freshRow dE dL id] /\
     lockedAt (freshRow dE dL id) = None /\
     lastExecutedAt (freshRow dE dL id) = None) /\
  (forall env1 env2 t m1 m2 tr1 tr2,
     ScheduledTask.id t = id ->
     storeFault env1 OpInsert = None ->
     storeFault env2 OpInsert = None ->
     (registeredIn id m1 = true -> rowsFor id s <> []) ->
     exists w1 w2,
       ensureTaskIsRegistered dE dL env1 t {| store := s; tasks := m1; trace := tr1 |}
       = (Normal tt, w1) /\
       store w1 = ensureRow dE dL id s /\
       ensureTaskIsRegistered dE dL env2 t w1 = (Normal tt, w1) /\
       ensureTaskIsRegistered dE dL env2 t {| store := store w1; tasks := m2; trace := tr2 |}
       = (Normal tt, w2) /\
       store w2 = store w1).
Proof.
  intros Huniq. split; [apply ensureRow_idem|]. split; [|split; [|split; [|split]]].
  - pose proof (unique_rowsFor id s Huniq) as Hle.
    rewrite rowsFor_ensureRow. destruct (rowsFor id s) as [|r [|r' rest]]; simpl in *; lia.
  - by apply ensureRow_unique.
  - apply insertOrIgnore_present.
  - intros Hrows. unfold ensureRow. by rewrite insertOrIgnore_absent.
  - intros env1 env2 t m1 m2 tr1 tr2 <- H1 H2 Hcoh.
    assert (exists w1,
      ensureTaskIsRegistered dE dL env1 t {| store := s; tasks := m1; trace := tr1 |}
      = (Normal tt, w1) /\
      store w1 = ensureRow dE dL (ScheduledTask.id t) s /\
      registeredIn (ScheduledTask.id t) (tasks w1) = true) as (w1 & Hrun1 & Hs1 & Hreg1).
    { run_js. destruct (registeredIn (ScheduledTask.id t) m1) eqn:Hreg; simpl.
      - eexists. split; [reflexivity|]. simpl. split; [|done].
        unfold ensureRow. by rewrite insertOrIgnore_present by auto.
      - rewrite H1. eexists. split; [reflexivity|]. simpl. split; [done|].
        apply registeredIn_marked. }
    exists w1.
    assert (exists w2,
      ensureTaskIsRegistered dE dL env2 t {| store := store w1; tasks := m2; trace := tr2 |}
      = (Normal tt, w2) /\ store w2 = store w1) as (w2 & Hrun2 & Hs2).
    { run_js. destruct (registeredIn (ScheduledTask.id t) m2); simpl.
      - eexists. split; reflexivity.
      - rewrite H2. eexists. split; [reflexivity|]. simpl.
        rewrite Hs1. apply ensureRow_idem. }
    exists w2. repeat split; try done.
    unfold ensureTaskIsRegistered. by rewrite Hreg1.
Qed.

(** ** Reporting *)

Lemma entityToReport_shape r : entityToReport r = reportShape r.
Proof. unfold entityToReport, reportShape. by destruct (lockedAt r). Qed.

(** C9. [getTasks] maps every row, in order, to the report shape, and
    [getTask] maps the row of the given id to it, or finds nothing exactly
    when the table has no row of that id; both are functions of the table
    alone. After a claimed attempt whose body resolves with ["ok"], the
    report of the task has [isRunning = false], [lastResult = "ok"] and
    [lastExecutedAt] set to the completion time. *)
Theorem C9_reporting dE dL ms opts :
  (forall s, getTasks s = List.map reportShape s) /\
  (forall id s, getTask id s = reportShape <$> head (rowsFor id s)) /\
  (forall id s, getTask id s = None <-> rowsFor id s = []) /\
  (forall id s report, getTask id s = Some report -> TaskReport.id report = id) /\
  (forall env t w affected w1 d,
     isServer env = false ->
     storeUp env ->
     claimStep dE dL env t w = (Normal affected, w1) ->
     affected <> 0%nat ->
     resolveTimeout ms opts t = MsValue d ->
     bodyRun env = SettlesFirst (Resolved (JString "ok")) ->
     exists w2 report,
       executeTask dE dL ms opts env t w = (Normal tt, w2) /\
       getTask (ScheduledTask.id t) (store w2) = Some report /\
       TaskReport.id report = ScheduledTask.id t /\
       TaskReport.isRunning report = false /\
       TaskReport.lastResult report = JString "ok" /\
       TaskReport.lastExecutedAt report = Some (finishTime env)).
Proof.
  split; [|split; [|split; [|split]]].
  - intros s. unfold getTasks. apply map_ext, entityToReport_shape.
  - intros id s. unfold getTask. rewrite getOne_head.
    destruct (rowsFor id s); simpl; [done|]. by rewrite entityToReport_shape.
  - intros id s. unfold getTask. rewrite getOne_head.
    by destruct (rowsFor id s).
  - intros id s report. unfold getTask, getOne.
    destruct (List.find (hasTaskId id) s) as [r|] eqn:Hfind; [|done].
    intros [= <-]. apply find_some in Hfind as [_ Hid].
    simpl. unfold hasTaskId in Hid. by apply bool_decide_eq_true_1 in Hid.
  - intros env t w affected w1 d Hserver Hup Hclaim Haff Hms Hbody.
    pose proof (claimed_rows _ _ _ _ _ _ _ Hclaim Haff) as Hrows.
    destruct (rowsFor (ScheduledTask.id t) (store w1)) as [|r0 rest] eqn:Hr; [done|].
    eexists.
    exists (entityToReport (applyPatch (successPatch (finishTime env) (JString "ok")) r0)).
    split.
    { rewrite (executeTask_claimed _ _ _ _ _ _ _ _ _ Hserver Hclaim Haff).
      run_js. rewrite Hms. simpl. rewrite Hbody. simpl.
      rewrite (Hup OpReleaseSuccess). reflexivity. }
    simpl. unfold getTask. rewrite getOne_head, rowsFor_repoUpdate, Hr.
    simpl. repeat split.
    assert (In r0 (rowsFor (ScheduledTask.id t) (store w1))) as Hin by (rewrite Hr; by left).
    apply filter_In in Hin as [_ Hid].
    unfold hasTaskId in Hid. by apply bool_decide_eq_true_1 in Hid.
Qed.

(** ** A firing as a run of the fleet

    The statements of one firing by process [p] are steps of the fleet:
    an optional insert, the claim, and the release of a claimed attempt.
    The process is left holding the lease only when the firing ended in a
    rejection, that is, when the release statement itself failed. *)

Lemma runClaimed_cases ms opts env t w :
  (exists patch w',
     isRelease patch /\
     runClaimed ms opts env t w = (Normal tt, w') /\
     store w' = (repoUpdate (ScheduledTask.id t) patch (store w)).1) \/
  (exists e w', runClaimed ms opts env t w = (Throw e, w') /\ store w' = store w).
Proof.
  destruct (storeFault env OpReleaseFailure) as [m|] eqn:Hf.
  - run_js. destruct (resolveTimeout ms opts t) as [d|m']; simpl.
    + destruct (bodyRun env) as [e|[v|e]|later]; simpl; rewrite ?Hf.
      2: destruct (storeFault env OpReleaseSuccess) eqn:Hs; simpl; rewrite ?Hf.
      3: { left. eexists. eexists. split; [|split; [reflexivity|reflexivity]].
           unfold isRelease; eauto. }
      all: right; eexists; eexists; split; reflexivity.
    + rewrite Hf. right; eexists; eexists; split; reflexivity.
  - left. destruct (runClaimed_release ms opts env t w Hf) as (patch & tr & Hrel & _ & Hrun).
    exists patch. eexists. split; [exact Hrel|]. split; [exact Hrun|reflexivity].
Qed.

Lemma claimStep_throw dE dL env t w e w1 :
  claimStep dE dL env t w = (Throw e, w1) ->
  store w1 = store w \/ store w1 = ensured dE dL t w.
Proof.
  unfold ensured. run_js.
  destruct (registeredIn (ScheduledTask.id t) (tasks w)); simpl.
  - destruct (storeFault env OpClaim); [|done]. intros [= _ <-]. by left.
  - destruct (storeFault env OpInsert); simpl; [intros [= _ <-]; by left|].
    destruct (storeFault env OpClaim); [|done]. intros [= _ <-]. by right.
Qed.

Lemma executeTask_fleet_run dE dL ms opts env t w (ph : nat -> Phase) (p : nat) :
  ph p = Idle ->
  exists ph',
    rtc (fleetStep dE dL (ScheduledTask.id t))
      {| table := store w; phase := ph |}
      {| table := store (executeTask dE dL ms opts env t w).2; phase := ph' |} /\
    (forall q, q <> p -> ph' q = ph q) /\
    (ph' p = Holding -> exists e, (executeTask dE dL ms opts env t w).1 = Throw e).
Proof.
  intros Hp. unfold executeTask.
  destruct (isServer env).
  { exists ph. split; [apply rtc_refl|]. split; [done|]. rewrite Hp. done. }
  unfold mbind, M_bind, bind.
  assert (rtc (fleetStep dE dL (ScheduledTask.id t))
            {| table := store w; phase := ph |}
            {| table := ensured dE dL t w; phase := ph |}) as Hens.
  { unfold ensured. destruct (registeredIn _ _); [apply rtc_refl|].
    apply rtc_once. by apply (step_ensure dE dL _ {| table := store w; phase := ph |} p). }
  destruct (claimStep dE dL env t w) as [[affected|e] w1] eqn:Hclaim.
  - apply claimStep_inv in Hclaim as (Hs1 & Ha & _).
    pose proof (step_claim dE dL (ScheduledTask.id t)
                  {| table := ensured dE dL t w; phase := ph |} p (claimTime env) Hp) as Hstep.
    simpl in Hstep. rewrite <- Hs1, <- Ha in Hstep.
    case_bool_decide as Haff.
    + eexists. split; [eapply rtc_r; [exact Hens|exact Hstep]|].
      split; [intros q Hq; rewrite fn_lookup_insert_ne by congruence; done|].
      intros Hh. rewrite fn_lookup_insert in Hh. discriminate.
    + destruct (runClaimed_cases ms opts env t w1)
        as [(patch & w2 & Hrel & -> & Hs2)|(e & w2 & -> & Hs2)]; simpl.
      * eexists. split.
        { eapply rtc_r; [eapply rtc_r; [exact Hens|exact Hstep]|].
          rewrite Hs2.
          apply (step_release dE dL _ {| table := store w1; phase := _ |} p patch);
            [simpl; by rewrite fn_lookup_insert|exact Hrel]. }
        split; [intros q Hq; simpl; rewrite !fn_lookup_insert_ne by congruence; done|].
        intros Hh. rewrite fn_lookup_insert in Hh. discriminate.
      * eexists. split; [rewrite Hs2; eapply rtc_r; [exact Hens|exact Hstep]|].
        split; [intros q Hq; rewrite fn_lookup_insert_ne by congruence; done|]. eauto.
  - simpl. exists ph. split; [|split; [done|eauto]].
    destruct (claimStep_throw _ _ _ _ _ _ _ Hclaim) as [-> | ->]; [apply rtc_refl|exact Hens].
Qed.

(** ** The properties at the sample deployment *)

Lemma C1_mutual_exclusion_witness :
  let outcomes :=
    (claimAll "cleanup" [(1%nat, 100); (2%nat, 101); (3%nat, 102)] [idleRow]).2 in
  outcomes = [(1%nat, 1%nat); (2%nat, 0%nat); (3%nat, 0%nat)] /\ winners outcomes = [1%nat].
Proof.
  exact (proj1 (proj2 (C1_mutual_exclusion true JNull "cleanup"
                         [(1%nat, 100); (2%nat, 101); (3%nat, 102)] [idleRow]))
           idleRow 1%nat 100 [(2%nat, 101); (3%nat, 102)] eq_refl eq_refl eq_refl).
Defined.

Lemma C2_release_on_every_path_witness :
  let env := sampleEnv (SettlesFirst (Rejected (ErrorInstance "boom"))) in
  exists w2,
    sampleRun env emptyWorld = (Normal tt, w2) /\
    (forall r, r ∈ rowsFor "cleanup" (store w2) -> lockedAt r = None).
Proof.
  intros env.
  destruct (C2_release_on_every_path true JNull sampleMs sampleOptions env sampleTask
              emptyWorld 1%nat (sampleClaimed env emptyWorld))
    as (patch & tr & w2 & Hrun & _ & _ & _ & _ & Hrows & _).
  - reflexivity.
  - intros op. reflexivity.
  - vm_compute. reflexivity.
  - lia.
  - exists w2. split; [exact Hrun|exact Hrows].
Defined.

Lemma C5_containment_witness :
  (exists w', sampleRun (sampleEnv (ThrowsSync (NonError JNull))) emptyWorld = (Normal tt, w')) /\
  sampleRun (faultyEnv OpInsert "ECONNREFUSED" (SettlesFirst (Resolved JNull))) emptyWorld
  = (Throw (ErrorInstance "ECONNREFUSED"),
     {| store := []; tasks := ∅; trace := [Statement OpInsert] |}).
Proof.
  split.
  - exact (proj1 (C5_containment true JNull sampleMs sampleOptions
                    (sampleEnv (ThrowsSync (NonError JNull))) sampleTask emptyWorld)
             eq_refl eq_refl eq_refl).
  - exact (proj1 (proj2 (C5_containment true JNull sampleMs sampleOptions
                           (faultyEnv OpInsert "ECONNREFUSED" (SettlesFirst (Resolved JNull)))
                           sampleTask emptyWorld))
             "ECONNREFUSED" eq_refl eq_refl eq_refl).
Defined.

Lemma C6_timeout_recorded_once_witness :
  let env := sampleEnv (TimerFirst (Some (Resolved (JString "late")))) in
  exists tr w2,
    sampleRun env emptyWorld = (Normal tt, w2) /\
    statementsOf tr = [OpReleaseFailure] /\
    (exists delay,
       logsAt Warn tr = ["Scheduled task cleanup timed out after " +:+ delay +:+ "ms"]) /\
    (forall r, r ∈ rowsFor "cleanup" (store w2) ->
       lockedAt r = None /\
       lastResult r = JObject [("error", JString "Task timed out")]) /\
    sampleRun (sampleEnv (TimerFirst None)) emptyWorld = (Normal tt, w2).
Proof.
  intros env.
  destruct (C6_timeout_recorded_once true JNull sampleMs sampleOptions env sampleTask
              emptyWorld 1%nat (sampleClaimed env emptyWorld) (Some 60000)
              (Some (Resolved (JString "late"))))
    as (tr & w2 & Hrun & _ & _ & Hst & Hwarn & _ & _ & Hrows & Hlater).
  - reflexivity.
  - intros op. reflexivity.
  - vm_compute. reflexivity.
  - lia.
  - reflexivity.
  - reflexivity.
  - exists tr, w2. split; [exact Hrun|]. split; [exact Hst|]. split; [exact Hwarn|].
    split; [exact Hrows|exact (Hlater None)].
Defined.

Lemma C7_failed_claim_is_silent_witness :
  let env := sampleEnv (SettlesFirst (Resolved (JString "ok"))) in
  sampleRun env (worldOf [lockedRow]) = (Normal tt, sampleClaimed env (worldOf [lockedRow])) /\
  store (sampleClaimed env (worldOf [lockedRow])) = [lockedRow].
Proof.
  intros env.
  destruct (C7_failed_claim_is_silent true JNull sampleMs sampleOptions env sampleTask
              (worldOf [lockedRow]) (sampleClaimed env (worldOf [lockedRow])))
    as (Hrun & Hstore & _).
  - reflexivity.
  - vm_compute. reflexivity.
  - split; [exact Hrun|]. rewrite Hstore. vm_compute. reflexivity.
Defined.

Lemma C8_ensureRow_idempotent_witness :
  ensureRow true JNull "cleanup" (ensureRow true JNull "cleanup" [])
  = ensureRow true JNull "cleanup" [] /\
  length (rowsFor "cleanup" (ensureRow true JNull "cleanup" [])) = 1%nat.
Proof.
  destruct (C8_ensureRow_idempotent true JNull "cleanup" []) as (Hidem & Hone & _).
  - apply NoDup_nil_2.
  - split; [exact Hidem|exact Hone].
Defined.

Lemma C9_reporting_witness :
  let env := sampleEnv (SettlesFirst (Resolved (JString "ok"))) in
  exists w2 report,
    sampleRun env emptyWorld = (Normal tt, w2) /\
    getTask "cleanup" (store w2) = Some report /\
    TaskReport.isRunning report = false /\
    TaskReport.lastResult report = JString "ok" /\
    TaskReport.lastExecutedAt report = Some 200.
Proof.
  intros env.
  destruct (proj2 (proj2 (proj2 (proj2 (C9_reporting true JNull sampleMs sampleOptions))))
              env sampleTask emptyWorld 1%nat (sampleClaimed env emptyWorld) (Some 60000))
    as (w2 & report & Hrun & Hget & _ & Hrunning & Hresult & Hat).
  - reflexivity.
  - intros op. reflexivity.
  - vm_compute. reflexivity.
  - lia.
  - reflexivity.
  - reflexivity.
  - exists w2, report. repeat split; assumption.
Defined.

Lemma C10_unknown_error_witness :
  let env := sampleEnv (SettlesFirst (Rejected (NonError (JNumber 3)))) in
  exists w2,
    sampleRun env emptyWorld = (Normal tt, w2) /\
    (forall r, r ∈ rowsFor "cleanup" (store w2) ->
       lastResult r = JObject [("error", JString "Unknown error")]).
Proof.
  intros env.
  destruct (C10_unknown_error true JNull sampleMs sampleOptions env sampleTask
              emptyWorld 1%nat (sampleClaimed env emptyWorld) (Some 60000)
              (NonError (JNumber 3)))
    as (tr & w2 & Hrun & _ & _ & _ & Hrows).
  - reflexivity.
  - intros op. reflexivity.
  - vm_compute. reflexivity.
  - lia.
  - reflexivity.
  - right. reflexivity.
  - exists w2. split; [exact Hrun|exact Hrows].
Defined.

(** * Further properties of the strategy *)
(** ** What a firing leaves alone *)

Lemma rowsFor_other_update id id' cond p s :
  (forall r, cond r = true -> taskId r = id) ->
  id' <> id ->
  rowsFor id' (sqlUpdate cond p s).1 = rowsFor id' s.
Proof.
  intros Hcond Hne. rewrite rowsFor_sqlUpdate.
  rewrite <- (map_id (rowsFor id' s)) at 2. apply map_ext_in.
  intros r Hr. apply filter_In in Hr as [_ Hid].
  unfold hasTaskId in Hid. apply bool_decide_eq_true_1 in Hid.
  destruct (cond r) eqn:Hc; [|done]. apply Hcond in Hc. congruence.
Qed.

Lemma claimable_taskId id r : claimable id r = true -> taskId r = id.
Proof.
  unfold claimable, hasTaskId. intros H. apply andb_true_iff in H as [H _].
  by apply bool_decide_eq_true_1 in H.
Qed.

Lemma hasTaskId_taskId id r : hasTaskId id r = true -> taskId r = id.
Proof. unfold hasTaskId. apply bool_decide_eq_true_1. Qed.

Lemma keyOf_sqlUpdate cond p s : keyOf <$> (sqlUpdate cond p s).1 = keyOf <$> s.
Proof.
  rewrite sqlUpdate_store. rewrite <- list_fmap_compose. apply list_fmap_ext.
  intros i r _. simpl. by destruct (cond r).
Qed.

Lemma fleetStep_frame dE dL id f f' id' :
  fleetStep dE dL id f f' -> id' <> id -> rowsFor id' (table f') = rowsFor id' (table f).
Proof.
  intros Hstep Hne. destruct Hstep as [f p Hp | f p now Hp | f p patch Hp Hrel]; simpl.
  - unfold ensureRow, insertOrIgnore. destruct (List.existsb _ _); simpl; [done|].
    unfold rowsFor. rewrite List.filter_app. simpl. unfold hasTaskId at 2. simpl.
    rewrite bool_decide_eq_false_2 by congruence. apply app_nil_r.
  - unfold tryClaim. apply (rowsFor_other_update id); [apply claimable_taskId|done].
  - unfold repoUpdate. apply (rowsFor_other_update id); [apply hasTaskId_taskId|done].
Qed.

Lemma fleetStep_keys dE dL id f f' :
  fleetStep dE dL id f f' ->
  exists extra,
    keyOf <$> table f' = (keyOf <$> table f) ++ extra /\
    (extra = [] \/ extra = [(id, dE)] /\ rowsFor id (table f) = []).
Proof.
  intros Hstep. destruct Hstep as [f p Hp | f p now Hp | f p patch Hp Hrel]; simpl.
  - unfold ensureRow, insertOrIgnore. rewrite existsb_rowsFor.
    case_bool_decide as Hrows; simpl.
    + exists [(id, dE)]. rewrite fmap_app. split; [done|]. by right.
    + exists []. rewrite app_nil_r. split; [done|]. by left.
  - exists []. rewrite app_nil_r. split; [apply keyOf_sqlUpdate|by left].
  - exists []. rewrite app_nil_r. split; [apply keyOf_sqlUpdate|by left].
Qed.

Lemma notin_rowsFor_nil id s : id ∉ taskId <$> s -> rowsFor id s = [].
Proof.
  unfold rowsFor. induction s as [|r rest IH]; simpl; [done|].
  rewrite not_elem_of_cons. intros [Hne Hrest].
  unfold hasTaskId at 1. rewrite bool_decide_eq_false_2 by congruence. by apply IH.
Qed.

Lemma fleetStep_unique dE dL id f f' :
  fleetStep dE dL id f f' -> NoDup (taskId <$> table f) -> NoDup (taskId <$> table f').
Proof.
  intros Hstep Huniq. destruct Hstep as [f p Hp | f p now Hp | f p patch Hp Hrel]; simpl.
  - by apply ensureRow_unique.
  - assert (taskId <$> (tryClaim id now (table f)).1 = taskId <$> table f) as ->; [|done].
    unfold tryClaim. rewrite sqlUpdate_store, <- list_fmap_compose.
    apply list_fmap_ext. intros i r _. simpl. by destruct (claimable id r).
  - assert (taskId <$> (repoUpdate id patch (table f)).1 = taskId <$> table f) as ->; [|done].
    unfold repoUpdate. rewrite sqlUpdate_store, <- list_fmap_compose.
    apply list_fmap_ext. intros i r _. simpl. by destruct (hasTaskId id r).
Qed.

Lemma rowsFor_nil_keys id s : rowsFor id s = [] <-> id ∉ (keyOf <$> s).*1.
Proof.
  assert ((keyOf <$> s).*1 = taskId <$> s) as ->.
  { rewrite <- list_fmap_compose. by apply list_fmap_ext. }
  split; [apply rowsFor_nil_notin|apply notin_rowsFor_nil].
Qed.

Lemma fleet_frame dE dL id f f' id' :
  rtc (fleetStep dE dL id) f f' -> id' <> id -> rowsFor id' (table f') = rowsFor id' (table f).
Proof.
  intros Hrun Hne. induction Hrun as [|f g h Hstep _ IH]; [done|].
  rewrite IH. by apply (fleetStep_frame dE dL id).
Qed.

Lemma fleet_unique dE dL id f f' :
  rtc (fleetStep dE dL id) f f' -> NoDup (taskId <$> table f) -> NoDup (taskId <$> table f').
Proof.
  intros Hrun Huniq. induction Hrun as [|f g h Hstep _ IH]; [done|].
  apply IH. by apply (fleetStep_unique dE dL id f).
Qed.

Lemma fleet_keys dE dL id f f' :
  rtc (fleetStep dE dL id) f f' ->
  exists extra,
    keyOf <$> table f' = (keyOf <$> table f) ++ extra /\
    (extra = [] \/ extra = [(id, dE)] /\ rowsFor id (table f) = []).
Proof.
  intros Hrun. induction Hrun as [f|f g h Hstep _ IH].
  { exists []. rewrite app_nil_r. split; [done|by left]. }
  destruct (fleetStep_keys _ _ _ _ _ Hstep) as (e1 & Hk1 & He1).
  destruct IH as (e2 & Hk2 & He2).
  destruct He2 as [-> | [-> Hnone]].
  { exists e1. rewrite app_nil_r in Hk2. by rewrite Hk2. }
  destruct He1 as [-> | [-> _]].
  - exists [(id, dE)]. rewrite app_nil_r in Hk1. rewrite Hk2, Hk1. split; [done|].
    right. split; [done|]. apply rowsFor_nil_keys. rewrite <- Hk1.
    by apply rowsFor_nil_keys.
  - exfalso. apply rowsFor_nil_keys in Hnone. apply Hnone.
    rewrite Hk1, fmap_app. apply elem_of_app. right. simpl. apply list_elem_of_here.
Qed.

(** X1. A firing of a task never touches the rows of another task: whatever
    the store, the task body and the failures, the rows of every other id
    are the same after the firing as before. *)
Theorem executeTask_frame dE dL ms opts env t w id' :
  id' <> ScheduledTask.id t ->
  rowsFor id' (store (executeTask dE dL ms opts env t w).2) = rowsFor id' (store w).
Proof.
  intros Hne.
  destruct (executeTask_fleet_run dE dL ms opts env t w (fun _ => Idle) 0%nat eq_refl)
    as (ph' & Hrun & _).
  exact (fleet_frame _ _ _ _ _ _ Hrun Hne).
Qed.

(** X2. A firing never deletes a row and never changes the [taskId] or
    [enabled] column of a row: whatever the order of the rows, the pairs of
    these two columns after the firing are those before it, together with
    at most one new pair, which carries the task's id and the default of
    [enabled] and is added only when the table had no row of that id. *)
Theorem executeTask_keys dE dL ms opts env t w :
  exists extra,
    keyOf <$> store (executeTask dE dL ms opts env t w).2
    ≡ₚ (keyOf <$> store w) ++ extra /\
    (extra = [] \/
     extra = [(ScheduledTask.id t, dE)] /\ rowsFor (ScheduledTask.id t) (store w) = []).
Proof.
  destruct (executeTask_fleet_run dE dL ms opts env t w (fun _ => Idle) 0%nat eq_refl)
    as (ph' & Hrun & _).
  destruct (fleet_keys _ _ _ _ _ Hrun) as (extra & Hkeys & Hextra).
  exists extra. simpl in Hkeys. by rewrite Hkeys.
Qed.

(** X3. A firing keeps the task ids of the table unique. *)
Theorem executeTask_unique dE dL ms opts env t w :
  NoDup (taskId <$> store w) ->
  NoDup (taskId <$> store (executeTask dE dL ms opts env t w).2).
Proof.
  intros Huniq.
  destruct (executeTask_fleet_run dE dL ms opts env t w (fun _ => Idle) 0%nat eq_refl)
    as (ph' & Hrun & _).
  exact (fleet_unique _ _ _ _ _ Hrun Huniq).
Qed.

Ltac fire_step :=
  match goal with
  | |- context [isServer ?e] => destruct (isServer e) eqn:?
  | |- context [registeredIn ?i ?m] => destruct (registeredIn i m) eqn:?
  | |- context [storeFault ?e ?o] => destruct (storeFault e o) eqn:?
  | |- context [bool_decide _] => case_bool_decide
  | |- context [resolveTimeout ?a ?b ?c] => destruct (resolveTimeout a b c) eqn:?
  | |- context [bodyRun ?e] => destruct (bodyRun e) as [?|[?|?]|?] eqn:?
  end; simpl.

Ltac list_mem :=
  first [ solve [repeat constructor]
        | left; solve [repeat constructor]
        | right; solve [repeat constructor] ].

Ltac fire_cases := unfold executeTask; run_js; repeat fire_step.

(** X4. The trace of a firing extends the trace it started from. The
    statements it sends are an optional insert, then nothing or the claim
    followed by at most the success-path and the failure-path release, in
    that order; the task body is invoked at most once, and only in a
    firing that sends the claim and a release. On a server process the
    firing does nothing at all. *)
Theorem executeTask_protocol dE dL ms opts env t w :
  exists tr,
    trace (executeTask dE dL ms opts env t w).2 = trace w ++ tr /\
    protocolOk (statementsOf tr) = true /\
    (executions tr <= 1)%nat /\
    (executions tr = 1%nat ->
     OpClaim ∈ statementsOf tr /\
     (OpReleaseSuccess ∈ statementsOf tr \/ OpReleaseFailure ∈ statementsOf tr)) /\
    (isServer env = true -> tr = [] /\ executeTask dE dL ms opts env t w = (Normal tt, w)).
Proof.
  fire_cases.
  all: eexists; split; [rewrite <- ?(assoc_L (++)); simpl; try reflexivity;
                        symmetry; apply app_nil_r|].
  all: simpl; split; [reflexivity|]; split; [unfold executions; simpl; lia|].
  all: split; [unfold executions; simpl; intros Hex; try discriminate;
               split; list_mem|].
  all: intros Hsrv; try discriminate; try done.
Qed.

(** ** The lease across firings *)

Lemma locked_after_claim id now s r :
  r ∈ rowsFor id (tryClaim id now s).1 -> lockedAt r <> None.
Proof.
  intros Hr Hnull.
  pose proof (claimable_after_claim id now s) as Hnone.
  rewrite claimable_filter in Hnone.
  assert (r ∈ List.filter (fun r => bool_decide (lockedAt r = None))
                (rowsFor id (tryClaim id now s).1)) as Hin.
  { apply list_elem_of_In, filter_In. split; [by apply list_elem_of_In|].
    by apply bool_decide_eq_true_2. }
  rewrite Hnone in Hin. by apply elem_of_nil in Hin.
Qed.

Lemma filter_all {A} (f : A -> bool) (l : list A) :
  (forall x, x ∈ l -> f x = true) -> List.filter f l = l.
Proof.
  induction l as [|x rest IH]; simpl; [done|]. intros Hall.
  rewrite (Hall x) by apply list_elem_of_here.
  rewrite IH; [done|]. intros y Hy. apply Hall. by apply list_elem_of_further.
Qed.

Lemma ensured_present dE dL t w :
  rowsFor (ScheduledTask.id t) (store w) <> [] -> ensured dE dL t w = store w.
Proof.
  intros Hrows. unfold ensured, ensureRow. rewrite insertOrIgnore_present by done.
  by destruct (registeredIn _ _).
Qed.

Lemma claimStep_ok dE dL env t w :
  storeFault env OpInsert = None ->
  storeFault env OpClaim = None ->
  (claimStep dE dL env t w).1
  = Normal (tryClaim (ScheduledTask.id t) (claimTime env) (ensured dE dL t w)).2 /\
  store (claimStep dE dL env t w).2
  = (tryClaim (ScheduledTask.id t) (claimTime env) (ensured dE dL t w)).1.
Proof.
  intros Hi Hc. unfold ensured. run_js.
  destruct (registeredIn (ScheduledTask.id t) (tasks w)); simpl; rewrite ?Hi, ?Hc; simpl;
    rewrite ?Hc; done.
Qed.

(** X5. After a claimed attempt has ended on a store that answers, the
    next claim step of any process, whatever its own [tasks] map, affects
    every row of the task (there is at least one) and locks it at the new
    claim time. *)
Theorem lease_can_be_claimed_again dE dL ms opts env t w affected w1 env' m' tr' :
  isServer env = false ->
  storeUp env ->
  claimStep dE dL env t w = (Normal affected, w1) ->
  affected <> 0%nat ->
  storeFault env' OpInsert = None ->
  storeFault env' OpClaim = None ->
  let w2 := (executeTask dE dL ms opts env t w).2 in
  let next := claimStep dE dL env' t {| store := store w2; tasks := m'; trace := tr' |} in
  next.1 = Normal (length (rowsFor (ScheduledTask.id t) (store w2))) /\
  length (rowsFor (ScheduledTask.id t) (store w2)) <> 0%nat /\
  (forall r, r ∈ rowsFor (ScheduledTask.id t) (store next.2) ->
     lockedAt r = Some (claimTime env')).
Proof.
  intros Hserver Hup Hclaim Haff Hi Hc w2 next. subst next w2.
  destruct (runClaimed_release ms opts env t w1 (Hup OpReleaseFailure))
    as (patch & tr & Hrel & _ & Hrun).
  pose proof (isRelease_unlocks patch Hrel) as Hunlock.
  pose proof (claimed_rows _ _ _ _ _ _ _ Hclaim Haff) as Hrows.
  rewrite (executeTask_claimed _ _ _ _ _ _ _ _ _ Hserver Hclaim Haff), Hrun. simpl.
  set (s2 := (repoUpdate (ScheduledTask.id t) patch (store w1)).1).
  assert (rowsFor (ScheduledTask.id t) s2 <> []) as Hrows2.
  { unfold s2. rewrite rowsFor_repoUpdate.
    destruct (rowsFor (ScheduledTask.id t) (store w1)); done. }
  assert (forall r, r ∈ rowsFor (ScheduledTask.id t) s2 -> lockedAt r = None) as Hfree.
  { intros r Hr. unfold s2 in Hr. rewrite rowsFor_repoUpdate in Hr.
    apply list_elem_of_In, in_map_iff in Hr as (r0 & <- & _). simpl. by rewrite Hunlock. }
  assert (List.filter (claimable (ScheduledTask.id t)) s2 = rowsFor (ScheduledTask.id t) s2)
    as Hall.
  { rewrite claimable_filter. apply filter_all. intros r Hr.
    apply bool_decide_eq_true_2. by apply Hfree. }
  destruct (claimStep_ok dE dL env' t {| store := s2; tasks := m'; trace := tr' |} Hi Hc)
    as [Hres Hstore].
  rewrite Hres, Hstore,
    (ensured_present dE dL t {| store := s2; tasks := m'; trace := tr' |} Hrows2). simpl.
  split; [|split].
  - unfold tryClaim. by rewrite sqlUpdate_affected, Hall.
  - destruct (rowsFor (ScheduledTask.id t) s2); done.
  - intros r Hr. unfold tryClaim in Hr. rewrite rowsFor_sqlUpdate in Hr.
    apply list_elem_of_In, in_map_iff in Hr as (r0 & <- & Hr0).
    assert (claimable (ScheduledTask.id t) r0 = true) as ->; [|done].
    rewrite <- Hall in Hr0. by apply filter_In in Hr0 as [_ ?].
Qed.

(** X6. While every row of a task is locked, a firing of that task leaves
    the table exactly as it is (the holder's [lockedAt] included), does
    not invoke the body, logs nothing and sends no statement but the
    insert and the claim, whatever fails in the store. *)
Theorem firing_on_locked_lease dE dL ms opts env t w :
  rowsFor (ScheduledTask.id t) (store w) <> [] ->
  (forall r, r ∈ rowsFor (ScheduledTask.id t) (store w) -> lockedAt r <> None) ->
  store (executeTask dE dL ms opts env t w).2 = store w /\
  exists tr,
    trace (executeTask dE dL ms opts env t w).2 = trace w ++ tr /\
    executions tr = 0%nat /\
    (forall level, logsAt level tr = []) /\
    (forall op, op ∈ statementsOf tr -> op = OpInsert \/ op = OpClaim).
Proof.
  intros Hrows Hlocked.
  assert (insertOrIgnore dE dL (ScheduledTask.id t) (store w) = (store w, 0%nat)) as Hins
    by by apply insertOrIgnore_present.
  assert (forall now, tryClaim (ScheduledTask.id t) now (store w) = (store w, 0%nat)) as Hcl.
  { intros now. apply sqlUpdate_none. rewrite claimable_filter.
    induction (rowsFor (ScheduledTask.id t) (store w)) as [|r rest IH]; simpl; [done|].
    rewrite bool_decide_eq_false_2 by (apply Hlocked; apply list_elem_of_here).
    destruct rest as [|r' rest']; [done|]. apply IH; [done|].
    intros x Hx. apply Hlocked. by apply list_elem_of_further. }
  unfold executeTask. run_js.
  repeat (fire_step; rewrite ?Hins, ?Hcl in *; simpl in *); try done.
  all: split; [reflexivity|].
  all: eexists; split; [rewrite <- ?(assoc_L (++)); simpl; try reflexivity;
                        symmetry; apply app_nil_r|].
  all: split; [reflexivity|]; split; [by intros []|].
  all: intros op Hop; apply list_elem_of_In in Hop; simpl in Hop; intuition auto.
Qed.

(** ** Outcomes of a claimed attempt *)

Lemma rows_after_release id p s r :
  r ∈ rowsFor id (repoUpdate id p s).1 -> exists r0, r0 ∈ rowsFor id s /\ r = applyPatch p r0.
Proof.
  rewrite rowsFor_repoUpdate. intros Hr.
  apply list_elem_of_In, in_map_iff in Hr as (r0 & <- & Hr0).
  exists r0. split; [by apply list_elem_of_In|done].
Qed.


(** X8. When the body resolves but the success-path update fails, the
    failure is caught like a failure of the body: the failure-path update
    follows, the row ends unlocked with [{error: <the store's message>}] in
    place of the body's value, [lastExecutedAt] is left as it was, and the
    callback's promise is fulfilled. *)
Theorem failed_success_release_is_caught dE dL ms opts env t w affected w1 d v m :
  isServer env = false ->
  claimStep dE dL env t w = (Normal affected, w1) ->
  affected <> 0%nat ->
  resolveTimeout ms opts t = MsValue d ->
  bodyRun env = SettlesFirst (Resolved v) ->
  storeFault env OpReleaseSuccess = Some m ->
  storeFault env OpReleaseFailure = None ->
  exists tr w2,
    executeTask dE dL ms opts env t w = (Normal tt, w2) /\
    trace w2 = trace w1 ++ tr /\
    statementsOf tr = [OpReleaseSuccess; OpReleaseFailure] /\
    executions tr = 1%nat /\
    store w2 = (repoUpdate (ScheduledTask.id t) (failurePatch m) (store w1)).1 /\
    (forall r, r ∈ rowsFor (ScheduledTask.id t) (store w2) ->
       lockedAt r = None /\ lastResult r = JObject [("error", JString m)]) /\
    List.map lastExecutedAt (store w2) = List.map lastExecutedAt (store w1).
Proof.
  intros Hserver Hclaim Haff Hms Hbody Hrs Hrf.
  eexists. eexists. split.
  { rewrite (executeTask_claimed _ _ _ _ _ _ _ _ _ Hserver Hclaim Haff).
    run_js. rewrite Hms. simpl. rewrite Hbody. simpl.
    rewrite Hrs. simpl. rewrite Hrf. reflexivity. }
  simpl. split; [by rewrite <- !(assoc_L (++))|].
  split; [reflexivity|]. split; [reflexivity|]. split; [reflexivity|].
  split; [|apply failurePatch_lastExecutedAt].
  intros r Hr. by apply rows_after_release in Hr as (r0 & _ & ->).
Qed.

(** X9. When both release updates fail, the callback's promise is
    rejected with the error of the failure-path update and the table stays
    as the claim left it: the rows of the task remain locked and [getTask]
    keeps reporting [isRunning = true]. *)
Theorem failed_release_leaves_the_lock dE dL ms opts env t w affected w1 m' m :
  isServer env = false ->
  claimStep dE dL env t w = (Normal affected, w1) ->
  affected <> 0%nat ->
  storeFault env OpReleaseSuccess = Some m' ->
  storeFault env OpReleaseFailure = Some m ->
  exists w2,
    executeTask dE dL ms opts env t w = (Throw (ErrorInstance m), w2) /\
    store w2 = store w1 /\
    rowsFor (ScheduledTask.id t) (store w2) <> [] /\
    (forall r, r ∈ rowsFor (ScheduledTask.id t) (store w2) -> lockedAt r <> None) /\
    (exists report,
       getTask (ScheduledTask.id t) (store w2) = Some report /\
       TaskReport.isRunning report = true).
Proof.
  intros Hserver Hclaim Haff Hrs Hrf.
  pose proof (claimed_rows _ _ _ _ _ _ _ Hclaim Haff) as Hrows.
  assert (forall r, r ∈ rowsFor (ScheduledTask.id t) (store w1) -> lockedAt r <> None)
    as Hlocked.
  { apply claimStep_inv in Hclaim as (Hs & _ & _). rewrite Hs.
    intros r. apply locked_after_claim. }
  assert (exists w2, runClaimed ms opts env t w1 = (Throw (ErrorInstance m), w2) /\
                     store w2 = store w1) as (w2 & Hrun & Hs2).
  { run_js. destruct (resolveTimeout ms opts t) as [d|mm]; simpl.
    - destruct (bodyRun env) as [e|[v|e]|later]; simpl; rewrite ?Hrs; simpl; rewrite Hrf;
        eexists; split; reflexivity.
    - rewrite Hrf. eexists; split; reflexivity. }
  exists w2. rewrite (executeTask_claimed _ _ _ _ _ _ _ _ _ Hserver Hclaim Haff).
  split; [exact Hrun|]. rewrite Hs2. split; [done|]. split; [done|]. split; [done|].
  unfold getTask. rewrite getOne_head.
  destruct (rowsFor (ScheduledTask.id t) (store w1)) as [|r0 rest] eqn:Hr; [done|].
  simpl. eexists. split; [reflexivity|]. simpl.
  rewrite bool_decide_eq_false_2; [done|]. apply Hlocked. apply list_elem_of_here.
Qed.

(** X10. When [ms] throws on the timeout option, the claimed attempt sets no
    timer and never invokes the task body; the exception is recorded like
    a failure of the body and the lease is released. *)
Theorem rejected_timeout_option_skips_the_body dE dL ms opts env t w affected w1 m :
  isServer env = false ->
  storeUp env ->
  claimStep dE dL env t w = (Normal affected, w1) ->
  affected <> 0%nat ->
  resolveTimeout ms opts t = MsThrows m ->
  exists tr w2,
    executeTask dE dL ms opts env t w = (Normal tt, w2) /\
    trace w2 = trace w1 ++ tr /\
    executions tr = 0%nat /\
    timersSet tr = [] /\
    statementsOf tr = [OpReleaseFailure] /\
    (forall r, r ∈ rowsFor (ScheduledTask.id t) (store w2) ->
       lockedAt r = None /\ lastResult r = JObject [("error", JString m)]).
Proof.
  intros Hserver Hup Hclaim Haff Hms.
  eexists. eexists. split.
  { rewrite (executeTask_claimed _ _ _ _ _ _ _ _ _ Hserver Hclaim Haff).
    run_js. rewrite Hms. simpl. rewrite (Hup OpReleaseFailure). reflexivity. }
  simpl. split; [by rewrite <- !(assoc_L (++))|].
  split; [reflexivity|]. split; [reflexivity|]. split; [reflexivity|].
  intros r Hr. by apply rows_after_release in Hr as (r0 & _ & ->).
Qed.

(** X11. A firing of a task that has its own timeout does not depend on the
    plugin's [defaultTimeout], and a firing whose effective timeout is a
    number does not depend on what [ms] computes. *)
Theorem task_timeout_overrides_default dE dL ms env t w :
  (forall d opts opts',
     ScheduledTask.timeout t = Some d ->
     executeTask dE dL ms opts env t w = executeTask dE dL ms opts' env t w) /\
  (forall n opts ms',
     ScheduledTask.timeout t = Some (DNumber n) ->
     executeTask dE dL ms opts env t w = executeTask dE dL ms' opts env t w) /\
  (forall n opts ms',
     ScheduledTask.timeout t = None ->
     defaultTimeout opts = Some (DNumber n) ->
     executeTask dE dL ms opts env t w = executeTask dE dL ms' opts env t w).
Proof.
  split; [|split].
  - intros d opts opts' Ht. unfold executeTask, runClaimed, resolveTimeout. by rewrite Ht.
  - intros n opts ms' Ht. unfold executeTask, runClaimed, resolveTimeout. by rewrite Ht.
  - intros n opts ms' Ht Hd. unfold executeTask, runClaimed, resolveTimeout.
    by rewrite Ht, Hd.
Qed.

(** X12. A claimed attempt whose timeout resolves sets exactly one timer,
    with the resolved delay, and invokes the body once; the timer is
    cleared exactly when the body resolves first, and is left armed when
    the body throws or rejects. *)
Theorem timer_is_cleared_only_on_success dE dL ms opts env t w affected w1 d :
  isServer env = false ->
  claimStep dE dL env t w = (Normal affected, w1) ->
  affected <> 0%nat ->
  resolveTimeout ms opts t = MsValue d ->
  exists tr,
    trace (executeTask dE dL ms opts env t w).2 = trace w1 ++ tr /\
    timersSet tr = [d] /\
    executions tr = 1%nat /\
    clearings tr
    = match bodyRun env with
      | SettlesFirst (Resolved _) => 1%nat
      | _ => 0%nat
      end.
Proof.
  intros Hserver Hclaim Haff Hms.
  rewrite (executeTask_claimed _ _ _ _ _ _ _ _ _ Hserver Hclaim Haff).
  run_js. rewrite Hms. simpl.
  destruct (bodyRun env) as [e|[v|e]|later]; simpl;
    destruct (storeFault env OpReleaseSuccess); simpl;
    destruct (storeFault env OpReleaseFailure); simpl.
  all: eexists; split; [rewrite <- !(assoc_L (++)); simpl; reflexivity|].
  all: repeat split.
Qed.

(** ** Registration *)

Lemma executeTask_tasks dE dL ms opts env t w :
  tasks (executeTask dE dL ms opts env t w).2
  = if isServer env || registeredIn (ScheduledTask.id t) (tasks w)
       || bool_decide (is_Some (storeFault env OpInsert))
    then tasks w
    else <[ScheduledTask.id t := {| task := t; isRegistered := true |}]> (tasks w).
Proof.
  unfold executeTask. run_js.
  destruct (isServer env); simpl; [done|].
  destruct (registeredIn (ScheduledTask.id t) (tasks w)); simpl.
  - repeat fire_step; done.
  - destruct (storeFault env OpInsert); simpl; [done|].
    repeat fire_step; done.
Qed.

(** X13. A process that has registered a task sends no insert for it; a
    firing on a worker whose insert goes through leaves the task
    registered, a firing whose insert fails leaves it unregistered (so the
    next firing tries again), and the entries of other tasks in the
    [tasks] map are never touched. *)
Theorem insert_is_sent_once_per_process dE dL ms opts env t w :
  (registeredIn (ScheduledTask.id t) (tasks w) = true ->
   exists tr,
     trace (executeTask dE dL ms opts env t w).2 = trace w ++ tr /\
     OpInsert ∉ statementsOf tr) /\
  (isServer env = false ->
   storeFault env OpInsert = None ->
   registeredIn (ScheduledTask.id t) (tasks (executeTask dE dL ms opts env t w).2) = true) /\
  (forall message,
     isServer env = false ->
     registeredIn (ScheduledTask.id t) (tasks w) = false ->
     storeFault env OpInsert = Some message ->
     registeredIn (ScheduledTask.id t) (tasks (executeTask dE dL ms opts env t w).2) = false) /\
  (forall id',
     id' <> ScheduledTask.id t ->
     tasks (executeTask dE dL ms opts env t w).2 !! id' = tasks w !! id').
Proof.
  split; [|split; [|split]].
  - intros Hreg. unfold executeTask. run_js.
    repeat fire_step; try congruence.
    all: eexists; split; [rewrite <- ?(assoc_L (++)); simpl; try reflexivity;
                          symmetry; apply app_nil_r|].
    all: simpl; intros Hin; apply list_elem_of_In in Hin; simpl in Hin;
      intuition discriminate.
  - intros Hserver Hi. rewrite executeTask_tasks, Hserver, Hi. simpl.
    destruct (registeredIn (ScheduledTask.id t) (tasks w)) eqn:Hreg; simpl; [done|].
    rewrite ?bool_decide_eq_false_2 by (by intros [? ?]). apply registeredIn_marked.
  - intros message Hserver Hreg Hi. rewrite executeTask_tasks, Hserver, Hreg, Hi. simpl.
    by rewrite ?bool_decide_eq_true_2 by eauto.
  - intros id' Hne. rewrite executeTask_tasks.
    destruct (_ || _ || _); [done|]. by rewrite lookup_insert_ne.
Qed.

(** ** Reports *)

(** X14. Between a successful claim and the release, [getTask] finds the
    task and reports [isRunning = true], with the id, [lastResult],
    [lastExecutedAt] and [enabled] it reported before the claim. *)
Theorem report_while_running dE dL env t w affected w1 :
  claimStep dE dL env t w = (Normal affected, w1) ->
  affected <> 0%nat ->
  exists before report,
    getTask (ScheduledTask.id t) (ensured dE dL t w) = Some before /\
    getTask (ScheduledTask.id t) (store w1) = Some report /\
    TaskReport.isRunning report = true /\
    TaskReport.id report = TaskReport.id before /\
    TaskReport.lastResult report = TaskReport.lastResult before /\
    TaskReport.lastExecutedAt report = TaskReport.lastExecutedAt before /\
    TaskReport.enabled report = TaskReport.enabled before.
Proof.
  intros Hclaim Haff.
  pose proof (claimed_rows _ _ _ _ _ _ _ Hclaim Haff) as Hrows.
  apply claimStep_inv in Hclaim as (Hs & _ & _).
  assert (forall r, r ∈ rowsFor (ScheduledTask.id t) (store w1) -> lockedAt r <> None)
    as Hlocked.
  { rewrite Hs. intros r. apply locked_after_claim. }
  revert Hrows Hlocked. rewrite Hs. unfold getTask. rewrite !getOne_head.
  unfold tryClaim. rewrite rowsFor_sqlUpdate.
  destruct (rowsFor (ScheduledTask.id t) (ensured dE dL t w)) as [|r0 rest]; [done|].
  simpl. intros _ Hlocked. eexists. eexists. split; [reflexivity|]. split; [reflexivity|].
  split.
  { simpl. rewrite bool_decide_eq_false_2; [done|]. apply Hlocked. apply list_elem_of_here. }
  by destruct (claimable (ScheduledTask.id t) r0).
Qed.

(** X15. [getTask(id)] is the first report of [getTasks()] that carries the
    id, and [getTasks()] has one report per row, in the order of the rows
    and with their ids. *)
Theorem getTask_is_first_of_getTasks (id : string) (s : Store) :
  getTask id s = List.find (fun report => bool_decide (TaskReport.id report = id)) (getTasks s) /\
  length (getTasks s) = length s /\
  List.map TaskReport.id (getTasks s) = List.map taskId s.
Proof.
  unfold getTask, getOne, getTasks. split; [|split].
  - induction s as [|r rest IH]; simpl; [done|].
    unfold hasTaskId at 1. by destruct (bool_decide (taskId r = id)).
  - apply length_map.
  - by rewrite map_map.
Qed.

(** X16. The callback's promise is rejected only with the error of a failed
    insert, claim update or failure-path release: an exception of the task
    body, of [ms] or of the success-path release never escapes. *)
Theorem only_store_errors_escape dE dL ms opts env t w e :
  (executeTask dE dL ms opts env t w).1 = Throw e ->
  exists op message,
    (op = OpInsert \/ op = OpClaim \/ op = OpReleaseFailure) /\
    storeFault env op = Some message /\
    e = ErrorInstance message.
Proof.
  unfold executeTask. run_js. repeat fire_step; intros [= <-]; eauto 10.
Qed.

(** ** The request-context cache *)

Section CacheProperties.

Context {Ctx : Type} `{Countable Ctx} {K : Type} `{Countable K} {S : Type}.
Implicit Types (caches : gmap Ctx (gmap K JsValue)) (ctx : Ctx) (key : K) (st : S).
Implicit Types (getDefault : option (S -> Completion JsValue * S)).

Import RequestContextCacheService.

Lemma peek_set ctx key val caches ctx' key' :
  peek ctx' key' (set ctx key val caches)
  = if bool_decide (ctx' = ctx /\ key' = key) then Some val else peek ctx' key' caches.
Proof.
  unfold peek, set, getContextCache.
  destruct (caches !! ctx) as [c|] eqn:Hc; simpl.
  - destruct (decide (ctx' = ctx)) as [->|Hne].
    + rewrite lookup_insert_eq, Hc. simpl.
      destruct (decide (key' = key)) as [->|Hk].
      * rewrite lookup_insert_eq. by rewrite bool_decide_eq_true_2.
      * rewrite lookup_insert_ne by done. by rewrite bool_decide_eq_false_2 by tauto.
    + rewrite lookup_insert_ne by done. by rewrite bool_decide_eq_false_2 by tauto.
  - rewrite insert_insert_eq.
    destruct (decide (ctx' = ctx)) as [->|Hne].
    + rewrite lookup_insert_eq, Hc. simpl.
      destruct (decide (key' = key)) as [->|Hk].
      * rewrite lookup_insert_eq. by rewrite bool_decide_eq_true_2.
      * rewrite lookup_insert_ne by done. by rewrite bool_decide_eq_false_2 by tauto.
    + rewrite lookup_insert_ne by done. by rewrite bool_decide_eq_false_2 by tauto.
Qed.

Lemma peek_created ctx caches ctx' key' :
  caches !! ctx = None -> peek ctx' key' (<[ctx := ∅]> caches) = peek ctx' key' caches.
Proof.
  intros Hc. unfold peek. destruct (decide (ctx' = ctx)) as [->|Hne].
  - by rewrite lookup_insert_eq, Hc.
  - by rewrite lookup_insert_ne.
Qed.

(** What [get] returns and stores, in terms of what is stored. *)
Lemma get_spec ctx key getDefault caches st :
  let stored := default JUndefined (peek ctx key caches) in
  let '(res, caches', st') := get ctx key getDefault caches st in
  if truthy stored then
    res = Normal stored /\ st' = st /\ caches' = caches
  else
    match getDefault with
    | None =>
        res = Normal JUndefined /\ st' = st /\
        forall ctx' key', peek ctx' key' caches' = peek ctx' key' caches
    | Some f =>
        res = (f st).1 /\ st' = (f st).2 /\
        forall ctx' key',
          peek ctx' key' caches'
          = match (f st).1 with
            | Normal v =>
                if bool_decide (ctx' = ctx /\ key' = key) then Some v
                else peek ctx' key' caches
            | Throw _ => peek ctx' key' caches
            end
    end.
Proof.
  unfold get, getContextCache, peek.
  destruct (caches !! ctx) as [c|] eqn:Hc; simpl.
  - destruct (truthy (default JUndefined (c !! key))); [done|].
    destruct getDefault as [f|]; [|done].
    destruct (f st) as [[v|e] st']; simpl; [|done].
    split; [done|]. split; [done|]. intros ctx' key'.
    destruct (decide (ctx' = ctx)) as [->|Hne].
    + rewrite lookup_insert_eq, Hc. simpl.
      destruct (decide (key' = key)) as [->|Hk].
      * rewrite lookup_insert_eq. by rewrite bool_decide_eq_true_2.
      * rewrite lookup_insert_ne by done. by rewrite bool_decide_eq_false_2 by tauto.
    + rewrite lookup_insert_ne by done. by rewrite bool_decide_eq_false_2 by tauto.
  - rewrite lookup_empty. simpl. destruct getDefault as [f|].
    + destruct (f st) as [[v|e] st']; simpl.
      * split; [done|]. split; [done|]. intros ctx' key'. rewrite insert_insert_eq.
        destruct (decide (ctx' = ctx)) as [->|Hne].
        -- rewrite lookup_insert_eq, Hc. simpl.
           destruct (decide (key' = key)) as [->|Hk].
           ++ rewrite lookup_insert_eq. by rewrite bool_decide_eq_true_2.
           ++ rewrite lookup_insert_ne by done. by rewrite bool_decide_eq_false_2 by tauto.
        -- rewrite lookup_insert_ne by done. by rewrite bool_decide_eq_false_2 by tauto.
      * split; [done|]. split; [done|]. intros ctx' key'.
        apply (peek_created ctx caches ctx' key' Hc).
    + split; [done|]. split; [done|]. intros ctx' key'.
      apply (peek_created ctx caches ctx' key' Hc).
Qed.

Lemma get_none_value ctx key caches st :
  (get ctx key None caches st).1.1
  = Normal (let stored := default JUndefined (peek ctx key caches) in
            if truthy stored then stored else JUndefined).
Proof.
  pose proof (get_spec ctx key None caches st) as Hspec. simpl in *.
  destruct (get ctx key None caches st) as [[res c'] st']. simpl.
  destruct (truthy _); by destruct Hspec as (-> & _).
Qed.

(** X17. After [set(ctx, key, val)] with a truthy [val], [get(ctx, key)]
    returns [val], with or without [getDefault], which is not called, and
    leaves the caches as they are. *)
Theorem cache_set_then_get ctx key val getDefault caches st :
  truthy val = true ->
  get ctx key getDefault (set ctx key val caches) st
  = (Normal val, set ctx key val caches, st).
Proof.
  intros Hval.
  pose proof (get_spec ctx key getDefault (set ctx key val caches) st) as Hspec.
  simpl in Hspec. rewrite peek_set, bool_decide_eq_true_2 in Hspec by done.
  simpl in Hspec. rewrite Hval in Hspec.
  destruct (get ctx key getDefault (set ctx key val caches) st) as [[res c'] st'].
  by destruct Hspec as (-> & -> & ->).
Qed.

(** X18. A falsy value ([0], [false], the empty string, [null],
    [undefined]) that was [set] is not found again: [get] without
    [getDefault] returns [undefined], and [get] with [getDefault] calls it
    and replaces the stored value by what it returns. *)
Theorem cache_falsy_value_is_a_miss ctx key val caches st :
  truthy val = false ->
  get ctx key None (set ctx key val caches) st
  = (Normal JUndefined, set ctx key val caches, st) /\
  (forall f v st',
     f st = (Normal v, st') ->
     get ctx key (Some f) (set ctx key val caches) st = (Normal v, set ctx key v caches, st')).
Proof.
  intros Hval. unfold get, set, getContextCache.
  destruct (caches !! ctx) as [c|] eqn:Hc; simpl;
    repeat (progress (rewrite ?lookup_insert_eq; simpl)); rewrite Hval.
  - split; [done|]. intros f v st' Hf. rewrite Hf. by rewrite !insert_insert_eq.
  - split; [done|]. intros f v st' Hf. rewrite Hf. by rewrite !insert_insert_eq.
Qed.

(** X19. A truthy value returned by [get] is returned by every later
    [get] of the same context and key, without calling the [getDefault]
    passed then and without changing the caches. *)
Theorem cache_returned_value_is_kept ctx key getDefault caches st v caches' st' :
  get ctx key getDefault caches st = (Normal v, caches', st') ->
  truthy v = true ->
  forall getDefault' st2,
    get ctx key getDefault' caches' st2 = (Normal v, caches', st2).
Proof.
  unfold get, getContextCache.
  destruct (caches !! ctx) as [c|] eqn:Hc; simpl.
  - destruct (truthy (default JUndefined (c !! key))) eqn:Ht.
    + intros [= <- <- <-] _ getDefault' st2. by rewrite Hc, Ht.
    + destruct getDefault as [f|].
      * destruct (f st) as [[v0|e] st0]; [|done].
        intros [= <- <- <-] Hv getDefault' st2.
        rewrite lookup_insert_eq. simpl. rewrite lookup_insert_eq. simpl. by rewrite Hv.
      * intros [= <- <- <-] Hv. done.
  - rewrite lookup_empty. simpl. destruct getDefault as [f|].
    + destruct (f st) as [[v0|e] st0]; [|done].
      intros [= <- <- <-] Hv getDefault' st2.
      rewrite lookup_insert_eq. simpl. rewrite lookup_insert_eq. simpl. by rewrite Hv.
    + intros [= <- <- <-] Hv. done.
Qed.

(** X20. What [get] finds under a key of a context is changed neither by a
    [set] nor by a [get], with or without default, of another key or
    another context. *)
Theorem cache_entries_are_independent ctx key ctx' key' caches st st2 :
  ~ (ctx' = ctx /\ key' = key) ->
  (forall val,
     (get ctx' key' None (set ctx key val caches) st2).1.1
     = (get ctx' key' None caches st2).1.1) /\
  (forall getDefault,
     (get ctx' key' None (get ctx key getDefault caches st).1.2 st2).1.1
     = (get ctx' key' None caches st2).1.1).
Proof.
  intros Hne. split.
  - intros val. rewrite !get_none_value, peek_set. by rewrite bool_decide_eq_false_2.
  - intros getDefault. rewrite !get_none_value.
    pose proof (get_spec ctx key getDefault caches st) as Hspec. simpl in Hspec.
    destruct (get ctx key getDefault caches st) as [[res c'] st']. simpl.
    destruct (truthy (default JUndefined (peek ctx key caches))).
    + by destruct Hspec as (_ & _ & ->).
    + destruct getDefault as [f|].
      * destruct Hspec as (_ & _ & Hpeek). rewrite (Hpeek ctx' key').
        destruct (f st).1; [by rewrite bool_decide_eq_false_2|done].
      * destruct Hspec as (_ & _ & Hpeek). by rewrite (Hpeek ctx' key').
Qed.

(** X21. When [getDefault] throws on a miss, [get] throws the same
    exception and stores nothing, so that the next [get] calls its
    [getDefault] again. *)
Theorem cache_throwing_default_is_not_cached ctx key f caches st e st' :
  truthy (default JUndefined (peek ctx key caches)) = false ->
  f st = (Throw e, st') ->
  exists caches',
    get ctx key (Some f) caches st = (Throw e, caches', st') /\
    (forall ctx' key', peek ctx' key' caches' = peek ctx' key' caches) /\
    (forall g v st3 st2,
       g st2 = (Normal v, st3) ->
       exists caches'', get ctx key (Some g) caches' st2 = (Normal v, caches'', st3)).
Proof.
  intros Hmiss Hf.
  pose proof (get_spec ctx key (Some f) caches st) as Hspec. simpl in Hspec.
  rewrite Hmiss, Hf in Hspec. simpl in Hspec.
  destruct (get ctx key (Some f) caches st) as [[res c'] st0].
  destruct Hspec as (-> & -> & Hpeek).
  exists c'. split; [done|]. split; [done|].
  intros g v st3 st2 Hg.
  pose proof (get_spec ctx key (Some g) c' st2) as Hspec. simpl in Hspec.
  rewrite Hpeek, Hmiss, Hg in Hspec. simpl in Hspec.
  destruct (get ctx key (Some g) c' st2) as [[res c''] st4].
  destruct Hspec as (-> & -> & _). by exists c''.
Qed.

End CacheProperties.

(** ** Default column visibility *)

Lemma lookup_foldl_entries b (fields : list FieldInfo.t) (acc : gmap string (option bool)) k :
  foldl (fun o f => <[FieldInfo.name f := Some b]> o) acc fields !! k
  = if bool_decide (k ∈ FieldInfo.name <$> fields) then Some (Some b) else acc !! k.
Proof.
  revert acc. induction fields as [|f rest IH]; intros acc.
  { cbn [foldl]. case_bool_decide as Hin; [by apply elem_of_nil in Hin|done]. }
  cbn [foldl]. rewrite IH. rewrite fmap_cons.
  repeat case_bool_decide; try done.
  - exfalso. match goal with Hn : _ ∉ _ :: _ |- _ => apply Hn end.
    by apply list_elem_of_further.
  - match goal with Hi : _ ∈ _ :: _ |- _ => apply elem_of_cons in Hi as [->|?] end;
      [by rewrite lookup_insert_eq|done].
  - match goal with Hn : _ ∉ _ :: _ |- _ => apply not_elem_of_cons in Hn as [? _] end.
    by rewrite lookup_insert_ne.
Qed.

Lemma lookup_fromEntries b fields k :
  fromEntries b fields !! k
  = if bool_decide (k ∈ FieldInfo.name <$> fields) then Some (Some b) else None.
Proof. unfold fromEntries. by rewrite lookup_foldl_entries, lookup_empty. Qed.

Lemma lookup_spread (a b : gmap string (option bool)) k :
  spread a b !! k = match b !! k with Some v => Some v | None => a !! k end.
Proof.
  unfold spread. destruct (b !! k) as [v|] eqn:Hb.
  - by apply lookup_union_Some_l.
  - by apply lookup_union_r.
Qed.

Lemma everyValueIs_both (o : gmap string (option bool)) :
  everyValueIs true o = true -> everyValueIs false o = true -> o = ∅.
Proof.
  unfold everyValueIs. intros Ht Hf.
  apply bool_decide_eq_true_1 in Ht. apply bool_decide_eq_true_1 in Hf.
  apply map_empty. intros k. destruct (o !! k) as [v|] eqn:Hk; [|done].
  pose proof (Ht k v Hk) as H1. pose proof (Hf k v Hk) as H2. congruence.
Qed.

(** X22. Without [defaultVisibility] the result hides exactly [id],
    [createdAt] and [updatedAt]. With it, every entry given is returned as
    given, and when the given values are neither all [true] nor all
    [false], the other columns get only those three defaults. *)
Theorem columnVisibility_given_entries_win (fields : list FieldInfo.t) :
  getColumnVisibility fields None = hiddenByDefault /\
  (forall (o : gmap string (option bool)) k v,
     o !! k = Some v -> getColumnVisibility fields (Some o) !! k = Some v) /\
  (forall (o : gmap string (option bool)) k,
     o !! k = None ->
     everyValueIs true o = false ->
     everyValueIs false o = false ->
     getColumnVisibility fields (Some o) !! k = hiddenByDefault !! k).
Proof.
  split; [|split].
  - unfold getColumnVisibility, spread. simpl. by rewrite !(left_id_L ∅ (∪)).
  - intros o k v Hk. unfold getColumnVisibility. simpl. by rewrite lookup_spread, Hk.
  - intros o k Hk Ht Hf. unfold getColumnVisibility. simpl.
    rewrite Ht, Hf, !lookup_spread, Hk. by rewrite !lookup_empty.
Qed.

(** X23. When [defaultVisibility] is not empty and all its values are
    [true], every field it does not name is hidden. *)
Theorem columnVisibility_all_true_hides_the_rest (fields : list FieldInfo.t)
    (o : gmap string (option bool)) k :
  everyValueIs true o = true ->
  o <> ∅ ->
  o !! k = None ->
  getColumnVisibility fields (Some o) !! k
  = if bool_decide (k ∈ FieldInfo.name <$> fields) then Some (Some false)
    else hiddenByDefault !! k.
Proof.
  intros Ht Hne Hk.
  assert (everyValueIs false o = false) as Hf.
  { destruct (everyValueIs false o) eqn:Hf; [|done].
    by destruct (Hne (everyValueIs_both o Ht Hf)). }
  unfold getColumnVisibility. simpl.
  rewrite Ht, Hf, !lookup_spread, Hk, lookup_empty, lookup_fromEntries.
  by case_bool_decide.
Qed.

(** X24. When all values of [defaultVisibility] are [false], which includes
    the empty object, every field it does not name is shown, [id],
    [createdAt] and [updatedAt] included when they are fields. *)
Theorem columnVisibility_all_false_shows_the_rest (fields : list FieldInfo.t)
    (o : gmap string (option bool)) k :
  everyValueIs false o = true ->
  o !! k = None ->
  getColumnVisibility fields (Some o) !! k
  = if bool_decide (k ∈ FieldInfo.name <$> fields) then Some (Some true)
    else hiddenByDefault !! k.
Proof.
  intros Hf Hk. unfold getColumnVisibility. simpl.
  rewrite Hf, !lookup_spread, Hk.
  destruct (everyValueIs true o); rewrite ?lookup_fromEntries, ?lookup_empty;
    by case_bool_decide.
Qed.

(** ** Request headers *)

Lemma lookup_assign key value (headers : gmap string string) k :
  assign key value headers !! k
  = if bool_decide (k = key /\ key <> "__proto__") then Some value else headers !! k.
Proof.
  unfold assign. case_bool_decide as Hproto.
  - rewrite bool_decide_eq_false_2; [done|]. tauto.
  - destruct (decide (k = key)) as [->|Hne].
    + rewrite lookup_insert_eq. by rewrite bool_decide_eq_true_2.
    + rewrite lookup_insert_ne by done. rewrite bool_decide_eq_false_2; [done|]. tauto.
Qed.

(** X25. Every request carries [Apollo-Require-Preflight: true]. With the
    bearer method and a stored auth token the [authorization] header is
    [Bearer <token>]; otherwise the auth token is never sent, and
    [authorization] is set only if it is the configured channel token
    key. *)
Theorem requestHeaders_preflight_and_bearer channelToken authToken tokenMethod channelTokenKey :
  requestHeaders channelToken authToken tokenMethod channelTokenKey
    !! "Apollo-Require-Preflight" = Some "true" /\
  (tokenMethod = Some "bearer" ->
   present authToken = true ->
   requestHeaders channelToken authToken tokenMethod channelTokenKey !! "authorization"
   = Some ("Bearer " +:+ default EmptyString authToken)) /\
  (tokenMethod <> Some "bearer" \/ present authToken = false ->
   requestHeaders channelToken authToken tokenMethod channelTokenKey !! "authorization"
   = if present channelToken && bool_decide (channelTokenKey = Some "authorization")
     then channelToken else None).
Proof.
  unfold requestHeaders. split; [by rewrite lookup_insert_eq|]. split.
  - intros -> Hauth. rewrite lookup_insert_ne by done.
    rewrite bool_decide_eq_true_2 by done. rewrite Hauth. by rewrite lookup_insert_eq.
  - intros Hno. rewrite lookup_insert_ne by done.
    assert (bool_decide (tokenMethod = Some "bearer") && present authToken = false) as Hoff.
    { destruct Hno as [Hm | Ha]; [by rewrite bool_decide_eq_false_2|].
      rewrite Ha. apply andb_false_r. }
    destruct (bool_decide (tokenMethod = Some "bearer")), (present authToken);
      try discriminate Hoff.
    all: destruct (present channelToken) eqn:Hc; simpl; [|done].
    all: rewrite lookup_assign, lookup_empty.
    all: destruct channelToken as [c|]; [|done].
    all: destruct channelTokenKey as [k|]; cbn [default].
    all: repeat case_bool_decide; simplify_eq; try done; try tauto.
    all: unfold id in *.
    all: try (match goal with Hk : _ /\ _ |- _ => destruct Hk as [Hk _] end; congruence).
    all: exfalso; match goal with Hn : ~ (_ /\ _) |- _ => apply Hn end;
      split; [congruence|done].
Qed.

(** X26. A stored channel token is sent under the configured key,
    [vendure-token] by default, unless that key is [authorization],
    [Apollo-Require-Preflight] or [__proto__]; no property is ever created
    under [__proto__]; without a stored channel token no header but
    [authorization] and [Apollo-Require-Preflight] is sent, and no header
    outside the configured key and these two is ever set. *)
Theorem requestHeaders_channel_token channelToken authToken tokenMethod channelTokenKey :
  let key := default "vendure-token" channelTokenKey in
  let headers := requestHeaders channelToken authToken tokenMethod channelTokenKey in
  (present channelToken = true ->
   key <> "authorization" ->
   key <> "Apollo-Require-Preflight" ->
   key <> "__proto__" ->
   headers !! key = channelToken) /\
  headers !! "__proto__" = None /\
  (present channelToken = false ->
   forall k, k <> "authorization" -> k <> "Apollo-Require-Preflight" -> headers !! k = None) /\
  (forall k,
     is_Some (headers !! k) ->
     k = key \/ k = "authorization" \/ k = "Apollo-Require-Preflight").
Proof.
  intros key headers. subst key headers. unfold requestHeaders.
  split; [|split; [|split]].
  - intros Hc Hk1 Hk2 Hk3. rewrite lookup_insert_ne by done. rewrite Hc.
    destruct (bool_decide (tokenMethod = Some "bearer")), (present authToken);
      rewrite ?lookup_insert_ne by done; rewrite lookup_assign;
      rewrite bool_decide_eq_true_2 by done; by destruct channelToken.
  - rewrite lookup_insert_ne by done.
    destruct (bool_decide (tokenMethod = Some "bearer")), (present authToken),
      (present channelToken);
      rewrite ?lookup_insert_ne by done; rewrite ?lookup_assign;
      rewrite ?bool_decide_eq_false_2 by (intros [-> ?]; done); apply lookup_empty.
  - intros Hc k Hk1 Hk2. rewrite lookup_insert_ne by done. rewrite Hc.
    destruct (bool_decide (tokenMethod = Some "bearer")), (present authToken);
      rewrite ?lookup_insert_ne by done; apply lookup_empty.
  - intros k [v Hv].
    destruct (decide (k = "Apollo-Require-Preflight")) as [->|Hk2]; [tauto|].
    destruct (decide (k = "authorization")) as [->|Hk1]; [tauto|].
    destruct (decide (k = default "vendure-token" channelTokenKey)) as [->|Hk]; [tauto|].
    exfalso. revert Hv. rewrite lookup_insert_ne by done.
    destruct (bool_decide (tokenMethod = Some "bearer")), (present authToken),
      (present channelToken);
      rewrite ?lookup_insert_ne by done; rewrite ?lookup_assign;
      rewrite ?bool_decide_eq_false_2 by (intros [? _]; done); by rewrite lookup_empty.
Qed.

(** ** The further properties at the samples *)

Lemma executeTask_frame_witness :
  rowsFor "digest"
    (store (sampleRun (sampleEnv (SettlesFirst (Resolved JNull))) (worldOf [otherRow])).2)
  = [otherRow].
Proof.
  exact (executeTask_frame true JNull sampleMs sampleOptions
           (sampleEnv (SettlesFirst (Resolved JNull))) sampleTask (worldOf [otherRow])
           "digest" ltac:(discriminate)).
Defined.

Lemma executeTask_unique_witness :
  NoDup (taskId <$>
         store (sampleRun (sampleEnv (TimerFirst None)) (worldOf [otherRow])).2).
Proof.
  apply (executeTask_unique true JNull sampleMs sampleOptions
           (sampleEnv (TimerFirst None)) sampleTask (worldOf [otherRow])).
  simpl. apply NoDup_singleton.
Defined.

Lemma executeTask_protocol_witness :
  let env := {| isServer := true; storeFault := fun _ => None; claimTime := 100;
                finishTime := 200; bodyRun := SettlesFirst (Resolved JNull) |} in
  sampleRun env (worldOf [idleRow]) = (Normal tt, worldOf [idleRow]).
Proof.
  intros env.
  destruct (executeTask_protocol true JNull sampleMs sampleOptions env sampleTask
              (worldOf [idleRow])) as (tr & _ & _ & _ & _ & Hserver).
  exact (proj2 (Hserver eq_refl)).
Defined.

Lemma lease_can_be_claimed_again_witness :
  let env := sampleEnv (SettlesFirst (Rejected (ErrorInstance "boom"))) in
  let w2 := (sampleRun env emptyWorld).2 in
  (claimStep true JNull (sampleEnv (TimerFirst None)) sampleTask (worldOf (store w2))).1
  = Normal (length (rowsFor "cleanup" (store w2))).
Proof.
  intros env w2.
  exact (proj1 (lease_can_be_claimed_again true JNull sampleMs sampleOptions env sampleTask
                  emptyWorld 1%nat (sampleClaimed env emptyWorld)
                  (sampleEnv (TimerFirst None)) ∅ []
                  eq_refl (fun op => eq_refl) ltac:(vm_compute; reflexivity) ltac:(lia)
                  eq_refl eq_refl)).
Defined.

Lemma firing_on_locked_lease_witness :
  store (sampleRun (faultyEnv OpClaim "ECONNREFUSED" (TimerFirst None)) (worldOf [lockedRow])).2
  = [lockedRow].
Proof.
  apply (firing_on_locked_lease true JNull sampleMs sampleOptions
           (faultyEnv OpClaim "ECONNREFUSED" (TimerFirst None)) sampleTask
           (worldOf [lockedRow])).
  - discriminate.
  - intros r Hr. apply list_elem_of_singleton in Hr. subst r. discriminate.
Defined.


Lemma failed_success_release_is_caught_witness :
  let env := faultyEnv OpReleaseSuccess "deadlock" (SettlesFirst (Resolved (JString "ok"))) in
  exists w2,
    sampleRun env emptyWorld = (Normal tt, w2) /\
    (forall r, r ∈ rowsFor "cleanup" (store w2) ->
       lockedAt r = None /\ lastResult r = JObject [("error", JString "deadlock")]).
Proof.
  intros env.
  destruct (failed_success_release_is_caught true JNull sampleMs sampleOptions env sampleTask
              emptyWorld 1%nat (sampleClaimed env emptyWorld) (Some 60000) (JString "ok")
              "deadlock")
    as (tr & w2 & Hrun & _ & _ & _ & _ & Hrows & _).
  - reflexivity.
  - vm_compute. reflexivity.
  - lia.
  - reflexivity.
  - reflexivity.
  - reflexivity.
  - reflexivity.
  - exists w2. split; [exact Hrun|exact Hrows].
Defined.

Lemma failed_release_leaves_the_lock_witness :
  let env := {| isServer := false;
                storeFault := fun op =>
                  if sameOp op OpReleaseSuccess || sameOp op OpReleaseFailure
                  then Some "gone" else None;
                claimTime := 100; finishTime := 200;
                bodyRun := SettlesFirst (Resolved (JString "ok")) |} in
  exists w2,
    sampleRun env emptyWorld = (Throw (ErrorInstance "gone"), w2) /\
    (forall r, r ∈ rowsFor "cleanup" (store w2) -> lockedAt r <> None).
Proof.
  intros env.
  destruct (failed_release_leaves_the_lock true JNull sampleMs sampleOptions env sampleTask
              emptyWorld 1%nat (sampleClaimed env emptyWorld) "gone" "gone")
    as (w2 & Hrun & _ & _ & Hlocked & _).
  - reflexivity.
  - vm_compute. reflexivity.
  - lia.
  - reflexivity.
  - reflexivity.
  - exists w2. split; [exact Hrun|exact Hlocked].
Defined.

Lemma rejected_timeout_option_skips_the_body_witness :
  let env := sampleEnv (SettlesFirst (Resolved (JString "ok"))) in
  exists tr w2,
    executeTask true JNull sampleMs badTimeoutOptions env sampleTask emptyWorld
    = (Normal tt, w2) /\
    executions tr = 0%nat /\
    trace w2 = trace (sampleClaimed env emptyWorld) ++ tr.
Proof.
  intros env.
  destruct (rejected_timeout_option_skips_the_body true JNull sampleMs badTimeoutOptions env
              sampleTask emptyWorld 1%nat (sampleClaimed env emptyWorld)
              "val is not a non-empty string or a valid number. val=undefined")
    as (tr & w2 & Hrun & Htr & Hex & _).
  - reflexivity.
  - intros op. reflexivity.
  - vm_compute. reflexivity.
  - lia.
  - reflexivity.
  - exists tr, w2. split; [exact Hrun|]. split; [exact Hex|exact Htr].
Defined.

Lemma task_timeout_overrides_default_witness :
  executeTask true JNull sampleMs sampleOptions (sampleEnv (TimerFirst None)) timedTask emptyWorld
  = executeTask true JNull sampleMs badTimeoutOptions (sampleEnv (TimerFirst None)) timedTask
      emptyWorld.
Proof.
  exact (proj1 (task_timeout_overrides_default true JNull sampleMs (sampleEnv (TimerFirst None))
                  timedTask emptyWorld)
           (DNumber 5000) sampleOptions badTimeoutOptions eq_refl).
Defined.

Lemma timer_is_cleared_only_on_success_witness :
  let env := sampleEnv (SettlesFirst (Rejected (ErrorInstance "boom"))) in
  exists tr,
    trace (sampleRun env emptyWorld).2 = trace (sampleClaimed env emptyWorld) ++ tr /\
    timersSet tr = [Some 60000] /\
    clearings tr = 0%nat.
Proof.
  intros env.
  destruct (timer_is_cleared_only_on_success true JNull sampleMs sampleOptions env sampleTask
              emptyWorld 1%nat (sampleClaimed env emptyWorld) (Some 60000))
    as (tr & Htr & Hset & _ & Hclear).
  - reflexivity.
  - vm_compute. reflexivity.
  - lia.
  - reflexivity.
  - exists tr. split; [exact Htr|]. split; [exact Hset|exact Hclear].
Defined.

Lemma insert_is_sent_once_per_process_witness :
  registeredIn "cleanup"
    (tasks (sampleRun (sampleEnv (TimerFirst None)) emptyWorld).2) = true /\
  registeredIn "cleanup"
    (tasks (sampleRun (faultyEnv OpInsert "ECONNREFUSED" (TimerFirst None)) emptyWorld).2)
  = false.
Proof.
  split.
  - exact (proj1 (proj2 (insert_is_sent_once_per_process true JNull sampleMs sampleOptions
                           (sampleEnv (TimerFirst None)) sampleTask emptyWorld))
             eq_refl eq_refl).
  - exact (proj1 (proj2 (proj2 (insert_is_sent_once_per_process true JNull sampleMs
                                  sampleOptions
                                  (faultyEnv OpInsert "ECONNREFUSED" (TimerFirst None))
                                  sampleTask emptyWorld)))
             "ECONNREFUSED" eq_refl eq_refl eq_refl).
Defined.

Lemma report_while_running_witness :
  let env := sampleEnv (TimerFirst None) in
  exists report,
    getTask "cleanup" (store (sampleClaimed env emptyWorld)) = Some report /\
    TaskReport.isRunning report = true.
Proof.
  intros env.
  destruct (report_while_running true JNull env sampleTask emptyWorld 1%nat
              (sampleClaimed env emptyWorld))
    as (before & report & _ & Hget & Hrunning & _).
  - vm_compute. reflexivity.
  - lia.
  - exists report. split; [exact Hget|exact Hrunning].
Defined.

Lemma only_store_errors_escape_witness :
  exists op message,
    (op = OpInsert \/ op = OpClaim \/ op = OpReleaseFailure) /\
    storeFault (faultyEnv OpClaim "ECONNREFUSED" (TimerFirst None)) op = Some message /\
    ErrorInstance "ECONNREFUSED" = ErrorInstance message.
Proof.
  apply (only_store_errors_escape true JNull sampleMs sampleOptions
           (faultyEnv OpClaim "ECONNREFUSED" (TimerFirst None)) sampleTask emptyWorld).
  vm_compute. reflexivity.
Defined.

Lemma cache_set_then_get_witness :
  RequestContextCacheService.get 1%nat "channel" (Some (countingDefault (JNumber 9)))
    (RequestContextCacheService.set 1%nat "channel" (JNumber 5) noCaches) 0%nat
  = (Normal (JNumber 5),
     RequestContextCacheService.set 1%nat "channel" (JNumber 5) noCaches, 0%nat).
Proof.
  exact (cache_set_then_get 1%nat "channel" (JNumber 5) (Some (countingDefault (JNumber 9)))
           noCaches 0%nat eq_refl).
Defined.

Lemma cache_falsy_value_is_a_miss_witness :
  RequestContextCacheService.get 1%nat "count" (None : option (nat -> Completion JsValue * nat))
    (RequestContextCacheService.set 1%nat "count" (JNumber 0) noCaches) 0%nat
  = (Normal JUndefined, RequestContextCacheService.set 1%nat "count" (JNumber 0) noCaches, 0%nat).
Proof.
  exact (proj1 (cache_falsy_value_is_a_miss 1%nat "count" (JNumber 0) noCaches 0%nat eq_refl)).
Defined.

Lemma cache_returned_value_is_kept_witness :
  let caches' :=
    (RequestContextCacheService.get 1%nat "zone" (Some (countingDefault (JString "EU")))
       noCaches 0%nat).1.2 in
  RequestContextCacheService.get 1%nat "zone" (Some (countingDefault (JString "US"))) caches' 1%nat
  = (Normal (JString "EU"), caches', 1%nat).
Proof.
  intros caches'.
  apply (cache_returned_value_is_kept 1%nat "zone" (Some (countingDefault (JString "EU")))
           noCaches 0%nat (JString "EU") caches' 1%nat).
  - vm_compute. reflexivity.
  - reflexivity.
Defined.

Lemma cache_entries_are_independent_witness :
  (RequestContextCacheService.get 2%nat "zone" (None : option (nat -> Completion JsValue * nat))
     (RequestContextCacheService.set 1%nat "zone" (JString "EU") noCaches) 0%nat).1.1
  = (RequestContextCacheService.get 2%nat "zone" None noCaches 0%nat).1.1.
Proof.
  apply (proj1 (cache_entries_are_independent 1%nat "zone" 2%nat "zone" noCaches 0%nat 0%nat
                  ltac:(intros [? _]; discriminate))).
Defined.

Lemma cache_throwing_default_is_not_cached_witness :
  exists caches',
    RequestContextCacheService.get 1%nat "zone" (Some (throwingDefault "no zone")) noCaches 0%nat
    = (Throw (ErrorInstance "no zone"), caches', 1%nat).
Proof.
  destruct (cache_throwing_default_is_not_cached 1%nat "zone" (throwingDefault "no zone")
              noCaches 0%nat (ErrorInstance "no zone") 1%nat eq_refl eq_refl)
    as (caches' & Hget & _).
  by exists caches'.
Defined.

Lemma columnVisibility_given_entries_win_witness :
  getColumnVisibility sampleFields (Some onlyName) !! "name" = Some (Some true).
Proof.
  exact (proj1 (proj2 (columnVisibility_given_entries_win sampleFields))
           onlyName "name" (Some true) eq_refl).
Defined.

Lemma columnVisibility_all_true_hides_the_rest_witness :
  getColumnVisibility sampleFields (Some onlyName) !! "price" = Some (Some false).
Proof.
  rewrite (columnVisibility_all_true_hides_the_rest sampleFields onlyName "price").
  - reflexivity.
  - vm_compute. reflexivity.
  - intros Heq. assert (onlyName !! "name" = (∅ : gmap string (option bool)) !! "name") as Hl
      by (by rewrite Heq).
    discriminate Hl.
  - reflexivity.
Defined.

Lemma columnVisibility_all_false_shows_the_rest_witness :
  getColumnVisibility sampleFields (Some notName) !! "id" = Some (Some true) /\
  getColumnVisibility sampleFields (Some ∅) !! "id" = Some (Some true).
Proof.
  split.
  - rewrite (columnVisibility_all_false_shows_the_rest sampleFields notName "id").
    + reflexivity.
    + vm_compute. reflexivity.
    + reflexivity.
  - rewrite (columnVisibility_all_false_shows_the_rest sampleFields ∅ "id").
    + reflexivity.
    + vm_compute. reflexivity.
    + reflexivity.
Defined.

Lemma requestHeaders_preflight_and_bearer_witness :
  requestHeaders (Some "ch1") (Some "tok") (Some "bearer") None !! "authorization"
  = Some "Bearer tok" /\
  requestHeaders (Some "ch1") (Some "tok") (Some "cookie") None !! "authorization" = None.
Proof.
  split.
  - exact (proj1 (proj2 (requestHeaders_preflight_and_bearer (Some "ch1") (Some "tok")
                           (Some "bearer") None)) eq_refl eq_refl).
  - assert (Some "cookie" <> Some "bearer") as Hne by discriminate.
    exact (proj2 (proj2 (requestHeaders_preflight_and_bearer (Some "ch1") (Some "tok")
                           (Some "cookie") None)) (or_introl Hne)).
Defined.

Lemma requestHeaders_channel_token_witness :
  requestHeaders (Some "ch1") (Some "tok") (Some "bearer") None !! "vendure-token" = Some "ch1".
Proof.
  exact (proj1 (requestHeaders_channel_token (Some "ch1") (Some "tok") (Some "bearer") None)
           eq_refl ltac:(discriminate) ltac:(discriminate) ltac:(discriminate)).
Defined.
